(** * Mojibake remediation scripts: a shallow embedding

    The repository holds three stand-alone Python scripts
    ([final-fix.py], [fix-encoding-complete.py], [fix-final-encoding.py]).
    Each one reads a text file, applies a table of literal
    [str.replace] substitutions and a few guarded patches, writes the
    file back and prints how many fixes it made.

    A Python 3 [str] is a sequence of Unicode code points; it is
    modelled as a list of code points ([N]).  The three built-in string
    operations the scripts use ([in], [str.replace], [str.count]) are
    modelled in [PyStr]; the scripts themselves follow, one module per
    file, and then the file-system boundary ([codecs.open]).

    The [print] calls are not modelled, except that the count of the
    last summary line is the second component of a script's result.
    Dict literals are lists of pairs in insertion order, the order in
    which Python 3.7 and later iterate over [dict.items()]. *)

From Stdlib Require Import List NArith Arith Bool Lia Permutation.
Import ListNotations.

(* ================================================================= *)
(** ** Python strings *)

Module PyStr.

Definition char := N.
Definition str := list char.

(** [str_eqb a b] is Python's [a == b] on strings. *)
Fixpoint str_eqb (a b : str) : bool :=
  match a, b with
  | [], [] => true
  | x :: a', y :: b' => N.eqb x y && str_eqb a' b'
  | _, _ => false
  end.

(** [starts p s] is [s.startswith(p)]. *)
Fixpoint starts (p s : str) : bool :=
  match p with
  | [] => true
  | x :: p' =>
      match s with
      | [] => false
      | y :: s' => N.eqb x y && starts p' s'
      end
  end.

(** [contains old s] is the membership test [old in s]: some position
    of [s] (the end included, for the empty pattern) starts with [old]. *)
Fixpoint contains (old s : str) : bool :=
  match s with
  | [] => starts old []
  | _ :: s' => starts old s || contains old s'
  end.

(** [str.replace] with a non-empty pattern scans left to right; at a
    match it emits [new] and jumps over the matched characters, so the
    occurrences replaced are the leftmost non-overlapping ones.  [skip]
    counts the characters of the current match still to be jumped. *)
Fixpoint replace_from (old new : str) (skip : nat) (s : str) : str :=
  match s with
  | [] => []
  | c :: s' =>
      match skip with
      | S k => replace_from old new k s'
      | O =>
          if starts old s
          then new ++ replace_from old new (length old - 1) s'
          else c :: replace_from old new 0 s'
      end
  end.

(** [replace old new s] is [s.replace(old, new)].  The empty pattern
    matches before every character and at the end. *)
Definition replace (old new s : str) : str :=
  match old with
  | [] => new ++ flat_map (fun c => c :: new) s
  | _ :: _ => replace_from old new 0 s
  end.

(** [count old s] is [s.count(old)], the number of non-overlapping
    occurrences, found by the same left-to-right scan. *)
Fixpoint count_from (old : str) (skip : nat) (s : str) : nat :=
  match s with
  | [] => 0
  | _ :: s' =>
      match skip with
      | S k => count_from old k s'
      | O =>
          if starts old s
          then S (count_from old (length old - 1) s')
          else count_from old 0 s'
      end
  end.

Definition count (old s : str) : nat :=
  match old with
  | [] => S (length s)
  | _ :: _ => count_from old 0 s
  end.

End PyStr.
Import PyStr.

(* ================================================================= *)
(** ** The loop bodies shared by the scripts

    The state threaded through a script is the pair of its two mutable
    variables: the document [content] and the fix counter. *)

Definition state := (str * nat)%type.

(** Loop body of [final-fix.py] (lines 18-22) and of
    [fix-encoding-complete.py] (lines 58-62):
<<
    if old in content:
        content = content.replace(old, new)
        count += 1
>> *)
Definition fix_entry (st : state) (e : str * str) : state :=
  let '(content, cnt) := st in
  let '(old, new) := e in
  if contains old content then (replace old new content, cnt + 1) else st.

(** Loop body of [fix-final-encoding.py] (lines 26-34):
<<
    if old in content:
        count = content.count(old)
        content = content.replace(old, new)
        fixed_count += count
>> *)
Definition fix_entry_counted (st : state) (e : str * str) : state :=
  let '(content, fixed_count) := st in
  let '(old, new) := e in
  if contains old content
  then (replace old new content, fixed_count + count old content)
  else st.

(** A guarded patch
<<
    if old in content and closed not in content:
        content = content.replace(old, new)
        count += 1
>>
    used for the dangling quotes of lines 181 and 191. *)
Definition quote_patch (old closed new : str) (st : state) : state :=
  let '(content, cnt) := st in
  if contains old content && negb (contains closed content)
  then (replace old new content, cnt + 1)
  else st.

(** The block patch of [fix-encoding-complete.py] (lines 92-95), with
    its weight. *)
Definition block_patch (old new : str) (weight : nat) (st : state) : state :=
  let '(content, cnt) := st in
  if contains old content then (replace old new content, cnt + weight) else st.

(* ================================================================= *)
(** ** [final-fix.py] *)

Module FinalFix.
Local Open Scope N_scope.

(** The dict literal [fixes] (lines 10-15), in insertion order, which is
    the order [fixes.items()] iterates in. *)
Definition fixes : list (str * str) :=
  [
    (* '娴嬭瘯娴佹按绾跨鐞?/h2>' : '测试流水线管理</h2>' *)
    ([23092; 23341; 30255; 23092; 20345; 25353; 32510; 36328; 37918; 63; 47;
     104; 50; 62],
     [27979; 35797; 27969; 27700; 32447; 31649; 29702; 60; 47; 104; 50; 62]);
    (* '杩愯涓?' : '运行中' *)
    ([26473; 24879; 28051; 63],
     [36816; 34892; 20013]);
    (* '执行娴佹按绾?' : '执行流水线' *)
    ([25191; 34892; 23092; 20345; 25353; 32510; 63],
     [25191; 34892; 27969; 27700; 32447]);
    (* '涓换鍔?/span>' : '个任务</span>' *)
    ([28051; 25442; 37716; 63; 47; 115; 112; 97; 110; 62],
     [20010; 20219; 21153; 60; 47; 115; 112; 97; 110; 62])
  ].

(** The two literals of the guard on line 25: the attribute as it
    opens, [title=] followed by a double quote (code point 34) and the
    label '执行流水线', and the same with its closing quote. *)
Definition title_open : str :=
  [116; 105; 116; 108; 101; 61; 34; 25191; 34892; 27969; 27700; 32447].
Definition title_closed : str :=
  [116; 105; 116; 108; 101; 61; 34; 25191; 34892; 27969; 27700; 32447; 34].

(** Lines 17-22: the table loop, from [count = 0]. *)
Definition table_loop (content : str) : state :=
  fold_left fix_entry fixes (content, 0%nat).

(** Lines 25-28: the quote patch. *)
Definition patch_quote (st : state) : state :=
  quote_patch title_open title_closed title_closed st.

(** The whole pass.  Its result is the content written back (line 31)
    and the count printed (line 33). *)
Definition transform (content : str) : state :=
  patch_quote (table_loop content).

End FinalFix.

(* ================================================================= *)
(** ** [fix-encoding-complete.py] *)

Module FixEncodingComplete.
Local Open Scope N_scope.

(** The dict literal [replacements] (lines 15-54), in insertion order.
    Its 29 keys are pairwise distinct, so no entry overwrites another. *)
Definition replacements : list (str * str) :=
  [
    (* '娴嬭瘯娴佹按绾跨鐞?/h2>' : '测试流水线管理</h2>' *)
    ([23092; 23341; 30255; 23092; 20345; 25353; 32510; 36328; 37918; 63; 47;
     104; 50; 62],
     [27979; 35797; 27969; 27700; 32447; 31649; 29702; 60; 47; 104; 50; 62]);
    (* '杩愯涓?' : '运行中' *)
    ([26473; 24879; 28051; 63],
     [36816; 34892; 20013]);
    (* '鎺掗槦涓?' : '排队中' *)
    ([37818; 25495; 27110; 28051; 63],
     [25490; 38431; 20013]);
    (* '鍒涘缓娴佹按绾?/span>' : '创建流水线</span>' *)
    ([37714; 28056; 32531; 23092; 20345; 25353; 32510; 63; 47; 115; 112; 97;
     110; 62],
     [21019; 24314; 27969; 27700; 32447; 60; 47; 115; 112; 97; 110; 62]);
    (* '娴佹按绾垮垪琛?/h3>' : '流水线列表</h3>' *)
    ([23092; 20345; 25353; 32510; 22446; 22442; 29723; 63; 47; 104; 51; 62],
     [27969; 27700; 32447; 21015; 34920; 60; 47; 104; 51; 62]);
    (* '执行娴佹按绾?' : '执行流水线' *)
    ([25191; 34892; 23092; 20345; 25353; 32510; 63],
     [25191; 34892; 27969; 27700; 32447]);
    (* '鎵ц娴佹按绾?' : '执行流水线' *)
    ([37813; 1094; 23092; 20345; 25353; 32510; 63],
     [25191; 34892; 27969; 27700; 32447]);
    (* '删除流水线' : '删除流水线' *)
    ([21024; 38500; 27969; 27700; 32447],
     [21024; 38500; 27969; 27700; 32447]);
    (* '鍒犻櫎娴佹按绾?' : '删除流水线' *)
    ([37714; 29371; 27342; 23092; 20345; 25353; 32510; 63],
     [21024; 38500; 27969; 27700; 32447]);
    (* '涓换鍔?/span>' : '个任务</span>' *)
    ([28051; 25442; 37716; 63; 47; 115; 112; 97; 110; 62],
     [20010; 20219; 21153; 60; 47; 115; 112; 97; 110; 62]);
    (* '瀹氭椂鎵ц' : '定时执行' *)
    ([28729; 27693; 26882; 37813; 1094],
     [23450; 26102; 25191; 34892]);
    (* '閫氱煡' : '通知' *)
    ([38315; 27697; 29025],
     [36890; 30693]);
    (* '鎵ц' : '执行' *)
    ([37813; 1094],
     [25191; 34892]);
    (* '閰嶇疆' : '配置' *)
    ([38320; 23943; 30086],
     [37197; 32622]);
    (* '浠诲姟娴佺▼' : '任务流程' *)
    ([28000; 35826; 23007; 23092; 20346; 9660],
     [20219; 21153; 27969; 31243]);
    (* '渚濊禆浜?' : '依赖于' *)
    ([28186; 28618; 31110; 27996; 63],
     [20381; 36182; 20110]);
    (* '寮€濮?' : '开始' *)
    ([23534; 8364; 28654; 63],
     [24320; 22987]);
    (* '鑰楁椂:' : '耗时:' *)
    ([38000; 26945; 26882; 58],
     [32791; 26102; 58]);
    (* '閲嶈瘯:' : '重试:' *)
    ([38322; 23944; 30255; 58],
     [37325; 35797; 58]);
    (* '娆?/span>' : '次</span>' *)
    ([23046; 63; 47; 115; 112; 97; 110; 62],
     [27425; 60; 47; 115; 112; 97; 110; 62]);
    (* '璐ㄩ噺闂ㄧ' : '质量门控' *)
    ([29840; 12585; 22138; 38338; 12583],
     [36136; 37327; 38376; 25511]);
    (* '閫氱煡閰嶇疆' : '通知配置' *)
    ([38315; 27697; 29025; 38320; 23943; 30086],
     [36890; 30693; 37197; 32622]);
    (* '閫夋嫨涓€涓祦姘寸嚎' : '选择一个流水线' *)
    ([38315; 22795; 23272; 28051; 8364; 28051; 31078; 23000; 23544; 22158],
     [36873; 25321; 19968; 20010; 27969; 27700; 32447]);
    (* '浠庡乏渚у垪琛ㄤ腑閫夋嫨涓€涓祦姘寸嚎鏉ユ煡鐪嬭缁嗕俊鎭拰绠＄悊閰嶇疆' : '从左侧列表中选择一个流水线来查看详细信息和管理配置' *)
    ([28000; 24225; 20047; 28186; 1091; 22442; 29723; 12580; 33105; 38315;
     22795; 23272; 28051; 8364; 28051; 31078; 23000; 23544; 22158; 37833;
     12518; 29025; 37930; 23341; 32513; 21973; 20426; 37805; 25328; 32480;
     65284; 24714; 38320; 23943; 30086],
     [20174; 24038; 20391; 21015; 34920; 20013; 36873; 25321; 19968; 20010;
      27969; 27700; 32447; 26469; 26597; 30475; 35814; 32454; 20449; 24687;
      21644; 31649; 29702; 37197; 32622]);
    (* '鍒涘缓鏂版祦姘寸嚎' : '创建新流水线' *)
    ([37714; 28056; 32531; 37826; 29256; 31078; 23000; 23544; 22158],
     [21019; 24314; 26032; 27969; 27700; 32447]);
    (* '鍙栨秷' : '取消' *)
    ([37721; 26664; 31223],
     [21462; 28040]);
    (* 'switch鍔熻兘鍑芥暟' : 'switch功能函数' *)
    ([115; 119; 105; 116; 99; 104; 37716; 29115; 20824; 37713; 33445;
     26271],
     [115; 119; 105; 116; 99; 104; 21151; 33021; 20989; 25968]);
    (* '鍙傛暟瀵硅薄' : '参数对象' *)
    ([37721; 20635; 26271; 28725; 30789; 34180],
     [21442; 25968; 23545; 35937]);
    (* '杩斿洖缁撴灉' : '返回结果' *)
    ([26473; 26047; 27926; 32513; 25780; 28745],
     [36820; 22238; 32467; 26524])
  ].

(** Lines 66-67 and 74-75: [title=], a double quote (code point 34) and
    the label, without and with the closing quote. *)
Definition old_181 : str :=
  [116; 105; 116; 108; 101; 61; 34; 25191; 34892; 27969; 27700; 32447].
Definition new_181 : str :=
  [116; 105; 116; 108; 101; 61; 34; 25191; 34892; 27969; 27700; 32447; 34].
Definition old_191 : str :=
  [116; 105; 116; 108; 101; 61; 34; 21024; 38500; 27969; 27700; 32447].
Definition new_191 : str :=
  [116; 105; 116; 108; 101; 61; 34; 21024; 38500; 27969; 27700; 32447; 34].

(** Lines 82-90: the two triple-quoted blocks, four lines each, joined
    by line feeds (code point 10). *)
(* '                { id: 'cicd', name: 'CI/CD 娴佹按绾?, description: '鏍囧噯鐨勬寔缁泦鎴愭祴璇曟祦绋? },' *)
Definition old_template_line1 : str :=
  [32; 32; 32; 32; 32; 32; 32; 32; 32; 32; 32; 32; 32; 32; 32; 32; 123; 32;
   105; 100; 58; 32; 39; 99; 105; 99; 100; 39; 44; 32; 110; 97; 109; 101;
   58; 32; 39; 67; 73; 47; 67; 68; 32; 23092; 20345; 25353; 32510; 63; 44;
   32; 100; 101; 115; 99; 114; 105; 112; 116; 105; 111; 110; 58; 32; 39;
   37837; 22247; 22127; 37928; 21228; 23508; 32513; 27878; 37812; 24877;
   31092; 29831; 26335; 31078; 32459; 63; 32; 125; 44].

(* '                { id: 'monitoring', name: '鐩戞帶娴佹按绾?, description: '鐢熶骇鐜鐩戞帶娴嬭瘯' },' *)
Definition old_template_line2 : str :=
  [32; 32; 32; 32; 32; 32; 32; 32; 32; 32; 32; 32; 32; 32; 32; 32; 123; 32;
   105; 100; 58; 32; 39; 109; 111; 110; 105; 116; 111; 114; 105; 110; 103;
   39; 44; 32; 110; 97; 109; 101; 58; 32; 39; 37929; 25118; 24118; 23092;
   20345; 25353; 32510; 63; 44; 32; 100; 101; 115; 99; 114; 105; 112; 116;
   105; 111; 110; 58; 32; 39; 37922; 29110; 39559; 37916; 37929; 25118;
   24118; 23092; 23341; 30255; 39; 32; 125; 44].

(* '                { id: 'regression', name: '鍥炲綊娴嬭瘯娴佹按绾?, description: '瀹屾暣鐨勫洖褰掓祴璇曞浠? },' *)
Definition old_template_line3 : str :=
  [32; 32; 32; 32; 32; 32; 32; 32; 32; 32; 32; 32; 32; 32; 32; 32; 123; 32;
   105; 100; 58; 32; 39; 114; 101; 103; 114; 101; 115; 115; 105; 111; 110;
   39; 44; 32; 110; 97; 109; 101; 58; 32; 39; 37733; 28850; 32138; 23092;
   23341; 30255; 23092; 20345; 25353; 32510; 63; 44; 32; 100; 101; 115; 99;
   114; 105; 112; 116; 105; 111; 110; 58; 32; 39; 28729; 23678; 26275;
   37928; 21227; 27926; 35120; 25491; 31092; 29831; 26334; 28000; 63; 32;
   125; 44].

(* '                { id: 'security', name: '瀹夊叏娴嬭瘯娴佹按绾?, description: '鍏ㄩ潰鐨勫畨鍏ㄦ祴璇曟祦绋? }' *)
Definition old_template_line4 : str :=
  [32; 32; 32; 32; 32; 32; 32; 32; 32; 32; 32; 32; 32; 32; 32; 32; 123; 32;
   105; 100; 58; 32; 39; 115; 101; 99; 117; 114; 105; 116; 121; 39; 44; 32;
   110; 97; 109; 101; 58; 32; 39; 28729; 22794; 21455; 23092; 23341; 30255;
   23092; 20345; 25353; 32510; 63; 44; 32; 100; 101; 115; 99; 114; 105; 112;
   116; 105; 111; 110; 58; 32; 39; 37711; 12585; 28528; 37928; 21227; 30056;
   37711; 12582; 31092; 29831; 26335; 31078; 32459; 63; 32; 125].

Definition old_template : str :=
  old_template_line1 ++ [10] ++ old_template_line2 ++ [10] ++ old_template_line3 ++ [10] ++ old_template_line4.

(* '                { id: 'cicd', name: 'CI/CD 流水线', description: '标准的持续集成测试流程' },' *)
Definition new_template_line1 : str :=
  [32; 32; 32; 32; 32; 32; 32; 32; 32; 32; 32; 32; 32; 32; 32; 32; 123; 32;
   105; 100; 58; 32; 39; 99; 105; 99; 100; 39; 44; 32; 110; 97; 109; 101;
   58; 32; 39; 67; 73; 47; 67; 68; 32; 27969; 27700; 32447; 39; 44; 32; 100;
   101; 115; 99; 114; 105; 112; 116; 105; 111; 110; 58; 32; 39; 26631;
   20934; 30340; 25345; 32493; 38598; 25104; 27979; 35797; 27969; 31243; 39;
   32; 125; 44].

(* '                { id: 'monitoring', name: '监控流水线', description: '生产环境监控测试' },' *)
Definition new_template_line2 : str :=
  [32; 32; 32; 32; 32; 32; 32; 32; 32; 32; 32; 32; 32; 32; 32; 32; 123; 32;
   105; 100; 58; 32; 39; 109; 111; 110; 105; 116; 111; 114; 105; 110; 103;
   39; 44; 32; 110; 97; 109; 101; 58; 32; 39; 30417; 25511; 27969; 27700;
   32447; 39; 44; 32; 100; 101; 115; 99; 114; 105; 112; 116; 105; 111; 110;
   58; 32; 39; 29983; 20135; 29615; 22659; 30417; 25511; 27979; 35797; 39;
   32; 125; 44].

(* '                { id: 'regression', name: '回归测试流水线', description: '完整的回归测试套件' },' *)
Definition new_template_line3 : str :=
  [32; 32; 32; 32; 32; 32; 32; 32; 32; 32; 32; 32; 32; 32; 32; 32; 123; 32;
   105; 100; 58; 32; 39; 114; 101; 103; 114; 101; 115; 115; 105; 111; 110;
   39; 44; 32; 110; 97; 109; 101; 58; 32; 39; 22238; 24402; 27979; 35797;
   27969; 27700; 32447; 39; 44; 32; 100; 101; 115; 99; 114; 105; 112; 116;
   105; 111; 110; 58; 32; 39; 23436; 25972; 30340; 22238; 24402; 27979;
   35797; 22871; 20214; 39; 32; 125; 44].

(* '                { id: 'security', name: '安全测试流水线', description: '全面的安全测试流程' }' *)
Definition new_template_line4 : str :=
  [32; 32; 32; 32; 32; 32; 32; 32; 32; 32; 32; 32; 32; 32; 32; 32; 123; 32;
   105; 100; 58; 32; 39; 115; 101; 99; 117; 114; 105; 116; 121; 39; 44; 32;
   110; 97; 109; 101; 58; 32; 39; 23433; 20840; 27979; 35797; 27969; 27700;
   32447; 39; 44; 32; 100; 101; 115; 99; 114; 105; 112; 116; 105; 111; 110;
   58; 32; 39; 20840; 38754; 30340; 23433; 20840; 27979; 35797; 27969;
   31243; 39; 32; 125].

Definition new_template : str :=
  new_template_line1 ++ [10] ++ new_template_line2 ++ [10] ++ new_template_line3 ++ [10] ++ new_template_line4.

(** Lines 57-62: the table loop, from [replaced_count = 0]. *)
Definition table_loop (content : str) : state :=
  fold_left fix_entry replacements (content, 0%nat).

(** Lines 68-71 and 76-79: the two quote patches; each guard tests the
    opening literal with a double quote appended. *)
Definition patch_181 (st : state) : state :=
  quote_patch old_181 (old_181 ++ [34]) new_181 st.
Definition patch_191 (st : state) : state :=
  quote_patch old_191 (old_191 ++ [34]) new_191 st.

(** Lines 92-95: the block patch, which adds 4 to the counter. *)
Definition patch_template (st : state) : state :=
  block_patch old_template new_template 4%nat st.

(** The whole pass.  Its result is the content written back (line 99)
    and the count printed (line 101). *)
Definition transform (content : str) : state :=
  patch_template (patch_191 (patch_181 (table_loop content))).

End FixEncodingComplete.

(* ================================================================= *)
(** ** [fix-final-encoding.py] *)

Module FixFinalEncoding.
Local Open Scope N_scope.

(** The list [fixes] of pairs (lines 17-22). *)
Definition fixes : list (str * str) :=
  [
    (* '娴嬭瘯娴佹按绾跨鐞?/h2>' : '测试流水线管理</h2>' *)
    ([23092; 23341; 30255; 23092; 20345; 25353; 32510; 36328; 37918; 63; 47;
     104; 50; 62],
     [27979; 35797; 27969; 27700; 32447; 31649; 29702; 60; 47; 104; 50; 62]);
    (* '杩愯涓?' : '运行中' *)
    ([26473; 24879; 28051; 63],
     [36816; 34892; 20013]);
    (* '执行娴佹按绾?' : '执行流水线{QUOTE}' *)
    ([25191; 34892; 23092; 20345; 25353; 32510; 63],
     [25191; 34892; 27969; 27700; 32447; 34]);
    (* '涓换鍔?/span>' : '个任务</span>' *)
    ([28051; 25442; 37716; 63; 47; 115; 112; 97; 110; 62],
     [20010; 20219; 21153; 60; 47; 115; 112; 97; 110; 62])
  ].

(** Lines 25-34: the table loop, from [fixed_count = 0].  This script
    has no patches, so the loop is the whole pass. *)
Definition table_loop (content : str) : state :=
  fold_left fix_entry_counted fixes (content, 0%nat).

Definition transform (content : str) : state := table_loop content.

End FixFinalEncoding.

(* ================================================================= *)
(** ** The file-system boundary

    Every script starts with
<<
    with codecs.open(file_path, 'r', encoding='utf-8') as f:
        content = f.read()
>>
    and ends with
<<
    with codecs.open(file_path, 'w', encoding='utf-8') as f:
        f.write(content)
>>
    Neither is wrapped in [try], so an exception raised by the first
    ends the script before anything below it runs.  Scripts are
    computations in a state-and-error monad over the file system. *)

Module FileIO.
Local Open Scope N_scope.

Definition byte := N.

Inductive error : Type :=
| FileNotFoundError
| PermissionError
| UnicodeDecodeError
| UnicodeEncodeError.

Record file : Type := mkFile
  { data : list byte; readable : bool; writable : bool }.

Definition filesystem := str -> option file.

(** The raw string literal [file_path], the same in the three scripts:
    D:\myproject\Test-Web\frontend\components\pipeline\PipelineManagement.tsx *)
Definition file_path : str :=
  [68; 58; 92; 109; 121; 112; 114; 111; 106; 101; 99; 116; 92; 84; 101; 115;
   116; 45; 87; 101; 98; 92; 102; 114; 111; 110; 116; 101; 110; 100; 92; 99;
   111; 109; 112; 111; 110; 101; 110; 116; 115; 92; 112; 105; 112; 101; 108;
   105; 110; 101; 92; 80; 105; 112; 101; 108; 105; 110; 101; 77; 97; 110;
   97; 103; 101; 109; 101; 110; 116; 46; 116; 115; 120].

Definition update (fs : filesystem) (f : file) : filesystem :=
  fun p => if str_eqb p file_path then Some f else fs p.

(** The strict [utf-8] codec.  A continuation byte is 10xxxxxx. *)
Definition continuation (b : byte) : bool := (128 <=? b) && (b <=? 191).

(** Range of the second byte of a three-byte sequence: E0 excludes
    overlong forms, ED excludes the surrogates. *)
Definition second_of3 (b0 b1 : byte) : bool :=
  if b0 =? 224 then (160 <=? b1) && (b1 <=? 191)
  else if b0 =? 237 then (128 <=? b1) && (b1 <=? 159)
  else continuation b1.

(** Range of the second byte of a four-byte sequence: F0 excludes
    overlong forms, F4 stops at U+10FFFF. *)
Definition second_of4 (b0 b1 : byte) : bool :=
  if b0 =? 240 then (144 <=? b1) && (b1 <=? 191)
  else if b0 =? 244 then (128 <=? b1) && (b1 <=? 143)
  else continuation b1.

Fixpoint utf8_decode (bs : list byte) : option str :=
  match bs with
  | [] => Some []
  | b0 :: r0 =>
      if b0 <? 128 then option_map (cons b0) (utf8_decode r0)
      else if (194 <=? b0) && (b0 <=? 223) then
        match r0 with
        | b1 :: r1 =>
            if continuation b1
            then option_map (cons ((b0 - 192) * 64 + (b1 - 128)))
                            (utf8_decode r1)
            else None
        | _ => None
        end
      else if (224 <=? b0) && (b0 <=? 239) then
        match r0 with
        | b1 :: b2 :: r2 =>
            if second_of3 b0 b1 && continuation b2
            then option_map
                   (cons ((b0 - 224) * 4096 + (b1 - 128) * 64 + (b2 - 128)))
                   (utf8_decode r2)
            else None
        | _ => None
        end
      else if (240 <=? b0) && (b0 <=? 244) then
        match r0 with
        | b1 :: b2 :: b3 :: r3 =>
            if second_of4 b0 b1 && continuation b2 && continuation b3
            then option_map
                   (cons ((b0 - 240) * 262144 + (b1 - 128) * 4096
                          + (b2 - 128) * 64 + (b3 - 128)))
                   (utf8_decode r3)
            else None
        | _ => None
        end
      else None
  end.

Definition utf8_encode_char (c : char) : option (list byte) :=
  if c <? 128 then Some [c]
  else if c <? 2048 then Some [192 + c / 64; 128 + c mod 64]
  else if c <? 65536 then
    if (55296 <=? c) && (c <=? 57343) then None
    else Some [224 + c / 4096; 128 + (c / 64) mod 64; 128 + c mod 64]
  else if c <? 1114112 then
    Some [240 + c / 262144; 128 + (c / 4096) mod 64;
          128 + (c / 64) mod 64; 128 + c mod 64]
  else None.

Fixpoint utf8_encode (s : str) : option (list byte) :=
  match s with
  | [] => Some []
  | c :: s' =>
      match utf8_encode_char c, utf8_encode s' with
      | Some bs, Some r => Some (bs ++ r)
      | _, _ => None
      end
  end.

(** A file system holding only the target file. *)
Definition only_target (f : file) : filesystem :=
  fun p => if str_eqb p file_path then Some f else None.

(** Computations that read and write the file system and may raise. *)
Definition io (A : Type) : Type := filesystem -> (error + A) * filesystem.

Definition ret {A : Type} (a : A) : io A := fun fs => (inr a, fs).

Definition bind {A B : Type} (m : io A) (k : A -> io B) : io B :=
  fun fs =>
    match m fs with
    | (inl e, fs') => (inl e, fs')
    | (inr a, fs') => k a fs'
    end.

Notation "x <- m ;; k" := (bind m (fun x => k))
  (at level 61, m at next level, right associativity).

(** Opening for reading and decoding the whole file.  The file system
    is returned as it was in every case. *)
Definition read_text : io str :=
  fun fs =>
    match fs file_path with
    | None => (inl FileNotFoundError, fs)
    | Some f =>
        if readable f
        then match utf8_decode (data f) with
             | Some s => (inr s, fs)
             | None => (inl UnicodeDecodeError, fs)
             end
        else (inl PermissionError, fs)
    end.

(** Opening with mode ['w'] truncates an existing writable file (and
    creates a missing one) before the text is encoded and written. *)
Definition write_text (content : str) : io unit :=
  fun fs =>
    match fs file_path with
    | None =>
        match utf8_encode content with
        | Some bs => (inr tt, update fs (mkFile bs true true))
        | None => (inl UnicodeEncodeError, update fs (mkFile [] true true))
        end
    | Some f =>
        if writable f
        then match utf8_encode content with
             | Some bs => (inr tt, update fs (mkFile bs (readable f) true))
             | None =>
                 (inl UnicodeEncodeError,
                  update fs (mkFile [] (readable f) true))
             end
        else (inl PermissionError, fs)
    end.

(** The text the target file holds, when it is there and decodes. *)
Definition contents (fs : filesystem) : option str :=
  match fs file_path with
  | Some f => utf8_decode (data f)
  | None => None
  end.

(** A whole script: load, transform, save, report the count. *)
Definition run (transform : str -> state) : io nat :=
  content <- read_text ;;
  let '(content', n) := transform content in
  _ <- write_text content' ;;
  ret n.

Definition final_fix : io nat := run FinalFix.transform.
Definition fix_encoding_complete : io nat := run FixEncodingComplete.transform.
Definition fix_final_encoding : io nat := run FixFinalEncoding.transform.

End FileIO.

(* ================================================================= *)
(** ** Overlap analysis of patterns and replacements

    Whether a replacement can create, or destroy, an occurrence of a
    string depends only on how the strings involved can be laid over each
    other.  These checks are decidable and are run on the scripts'
    tables. *)

Module Overlap.

(** One of the two strings is a prefix of the other. *)
Definition compat (a b : str) : bool := starts a b || starts b a.

(** [reaches k n]: some non-empty suffix of [k] is compatible with [n],
    that is, an occurrence of [k] can begin at or before the first
    character of a copy of [n] and run into it. *)
Fixpoint reaches (k n : str) : bool :=
  match k with
  | [] => false
  | _ :: k' => compat k n || reaches k' n
  end.

(** The two strings can share a position, whichever begins first. *)
Definition overlaps (a b : str) : bool := reaches a b || reaches b a.

(** [residuals n k]: the strings [t], not empty, such that [k] is a
    non-empty suffix of [n] followed by [t]: what an occurrence of [k]
    that begins inside a copy of [n] needs right after it. *)
Fixpoint residuals (n k : str) : list str :=
  match n with
  | [] => []
  | _ :: n' =>
      (if starts n k && (length n <? length k)%nat
       then [skipn (length n) k] else [])
      ++ residuals n' k
  end.

(** [w] cannot occur in a text none of the strings of [absent] occurs in. *)
Definition excluded (absent : list str) (w : str) : bool :=
  existsb (fun a => contains a w) absent.

(** Replacing [old] by [new] cannot make [k] appear in a text where the
    strings of [absent] do not occur. *)
Definition step_safe (absent : list str) (old new k : str) : bool :=
  match old, k with
  | _ :: _, _ :: k' =>
      negb (reaches k' new) && negb (contains k new)
      && forallb (fun t => excluded absent (old ++ t)) (residuals new k)
  | _, _ => false
  end.

(** The content a table loop ends with.  The guard [old in content]
    only skips a [replace] that would change nothing, so the content is
    that of the unguarded replacements, in table order. *)
Definition replace_all (table : list (str * str)) (s : str) : str :=
  fold_left (fun c e => replace (fst e) (snd e) c) table s.

(** The keys of a table that differ from their value. *)
Definition broken_keys (table : list (str * str)) : list str :=
  map fst (filter (fun e => negb (str_eqb (fst e) (snd e))) table).

(** Running down a table: the keys already replaced stay away while the
    later entries are applied. *)
Fixpoint table_safe (absent : list str) (table : list (str * str)) : bool :=
  match table with
  | [] => true
  | (old, new) :: rest =>
      if str_eqb old new then table_safe absent rest
      else forallb (step_safe absent old new) (old :: absent)
           && table_safe (old :: absent) rest
  end.

(** The guard of a quote patch is off: nothing opens, or the closed form
    is already there. *)
Definition settled (old closed c : str) : Prop :=
  contains old c = false \/ contains closed c = true.

(** Two entries whose keys and values are laid out so that applying one
    never touches what the other matches or produces. *)
Definition independent (e1 e2 : str * str) : bool :=
  let '(o1, n1) := e1 in
  let '(o2, n2) := e2 in
  negb (overlaps o1 o2) && negb (overlaps o1 n2) && negb (overlaps o2 n1)
  && match o1, o2 with _ :: _, _ :: _ => true | _, _ => false end.

Fixpoint pairwise_independent (table : list (str * str)) : bool :=
  match table with
  | [] => true
  | e :: rest => forallb (independent e) rest && pairwise_independent rest
  end.

Definition nonempty (w : str) : bool :=
  match w with [] => false | _ :: _ => true end.

(** The entry [e] can neither create nor destroy an occurrence of [w]. *)
Definition untouched (w : str) (e : str * str) : bool :=
  nonempty (fst e)
  && negb (overlaps w (fst e)) && negb (overlaps w (snd e)).

(** The entry [(k, v)], with the entries [before] and [after] it in the
    table, turns each occurrence of [k] in the input into one more
    occurrence of [v] in the output. *)
Definition entry_counts
    (before : list (str * str)) (k v : str) (after : list (str * str))
  : bool :=
  nonempty k && nonempty v
  && forallb (untouched k) before
  && forallb (untouched v) before && forallb (untouched v) after
  && negb (overlaps v k) && negb (reaches (tl v) v).

Fixpoint table_counts (before after : list (str * str)) : bool :=
  match after with
  | [] => true
  | (k, v) :: rest =>
      entry_counts before k v rest && table_counts (before ++ [(k, v)]) rest
  end.

(** No entry of [before] touches the keys of the later entries. *)
Fixpoint keys_untouched (before after : list (str * str)) : bool :=
  match after with
  | [] => true
  | (k, v) :: rest =>
      nonempty k && forallb (untouched k) before
      && keys_untouched (before ++ [(k, v)]) rest
  end.

(** The entry [e] leaves every occurrence of [w] in place (it changes
    nothing at all, or its key cannot touch [w]), and cannot make [w]
    appear. *)
Definition keeps_present (w : str) (e : str * str) : bool :=
  str_eqb (fst e) (snd e)
  || (nonempty (fst e) && negb (overlaps (fst e) w)).

Definition keeps_absent (w : str) (e : str * str) : bool :=
  str_eqb (fst e) (snd e) || step_safe [] (fst e) (snd e) w.

End Overlap.
Import Overlap.

(* ================================================================= *)
(** ** Notions used to describe the scripts' reports and tables *)

Module Derived.

(** The number of entries of a table whose key occurs in [x]. *)
Definition keys_found (table : list (str * str)) (x : str) : nat :=
  length (filter (fun e => contains (fst e) x) table).

(** The number of entries whose key is its own value and occurs in [x]:
    the entries that are counted although they change nothing. *)
Definition same_found (table : list (str * str)) (x : str) : nat :=
  length (filter (fun e => str_eqb (fst e) (snd e) && contains (fst e) x)
                 table).

(** A list without its element of index [i]. *)
Definition drop_at {A : Type} (i : nat) (l : list A) : list A :=
  firstn i l ++ skipn (S i) l.

(** The table of [fix-encoding-complete.py] without its 22nd entry
    ('閫氱煡閰嶇疆') and its 24th (the long sentence). *)
Definition live_replacements : list (str * str) :=
  drop_at 21 (drop_at 23 FixEncodingComplete.replacements).

(** The key of [fix-encoding-complete.py] that is its own value,
    '删除流水线'. *)
Definition same_key : str := [21024; 38500; 27969; 27700; 32447]%N.

(** Every key of [sub] is a key of [table] that differs from its
    value. *)
Definition keys_among_broken (sub table : list (str * str)) : bool :=
  forallb (fun e => existsb (str_eqb (fst e)) (broken_keys table)) sub.

(** A Unicode scalar value: a code point up to U+10FFFF that is not a
    surrogate.  These are the code points the [utf-8] codec encodes. *)
Definition scalar (c : char) : bool :=
  ((c <? 55296) || (57343 <? c))%N && (c <? 1114112)%N.

End Derived.
Import Derived.

(* ================================================================= *)
(** * Properties of the string operations *)

Module PyStrFacts.

Lemma str_eqb_eq (a b : str) : str_eqb a b = true <-> a = b.
Proof.
  revert b; induction a as [|x a IH]; intros [|y b]; simpl;
    try (split; [discriminate | congruence]); try tauto.
  rewrite andb_true_iff, N.eqb_eq, IH. split.
  - intros [-> ->]; reflexivity.
  - intros E; injection E; auto.
Qed.

Lemma starts_iff (p s : str) : starts p s = true <-> exists t, s = p ++ t.
Proof.
  revert s; induction p as [|x p IH]; intros s; simpl.
  - split; [exists s; reflexivity | reflexivity].
  - destruct s as [|y s].
    + split; [discriminate | intros [t H]; discriminate].
    + rewrite andb_true_iff, N.eqb_eq, IH. split.
      * intros [-> [t ->]]. exists t; reflexivity.
      * intros [t H]. injection H as -> ->. split; [reflexivity | eauto].
Qed.

Lemma starts_app (p t : str) : starts p (p ++ t) = true.
Proof. apply starts_iff. eauto. Qed.

Lemma starts_refl (p : str) : starts p p = true.
Proof. apply starts_iff. exists []. now rewrite app_nil_r. Qed.

Lemma starts_nil_r (p : str) : starts p [] = true -> p = [].
Proof. destruct p; [reflexivity | discriminate]. Qed.

Lemma starts_length (p s : str) : starts p s = true -> length p <= length s.
Proof.
  intros H. apply starts_iff in H as [t ->]. rewrite length_app. lia.
Qed.

(** A prefix of [a ++ b] is a prefix of [a], or is [a] and more. *)
Lemma starts_app_inv (k a b : str) :
  starts k (a ++ b) = true ->
  starts k a = true \/ exists t, k = a ++ t /\ t <> [] /\ starts t b = true.
Proof.
  revert a; induction k as [|x k IH]; intros a H; simpl; [now left|].
  destruct a as [|y a]; simpl in *.
  - right. exists (x :: k). repeat split; [discriminate | exact H].
  - apply andb_true_iff in H as [Hxy H]. rewrite Hxy; simpl.
    apply N.eqb_eq in Hxy as ->.
    destruct (IH _ H) as [H1 | (t & -> & Ht & H1)]; [now left | right].
    exists t. auto.
Qed.

Lemma contains_iff (k s : str) :
  contains k s = true <-> exists a b, s = a ++ k ++ b.
Proof.
  induction s as [|c s IH]; simpl.
  - split.
    + intros H. apply starts_nil_r in H as ->. exists [], []; reflexivity.
    + intros (a & b & H). symmetry in H.
      apply app_eq_nil in H as [-> H]. apply app_eq_nil in H as [-> _].
      reflexivity.
  - rewrite orb_true_iff, IH, starts_iff. split.
    + intros [[t H] | (a & b & ->)].
      * exists [], t. exact H.
      * exists (c :: a), b. reflexivity.
    + intros (a & b & H). destruct a as [|c' a]; simpl in H.
      * left. exists b. exact H.
      * injection H as -> ->. right. eauto.
Qed.

Lemma contains_app_l (k a b : str) :
  contains k a = true -> contains k (a ++ b) = true.
Proof.
  rewrite !contains_iff. intros (x & y & ->). exists x, (y ++ b).
  now rewrite <- !app_assoc.
Qed.

Lemma contains_app_r (k a b : str) :
  contains k b = true -> contains k (a ++ b) = true.
Proof.
  rewrite !contains_iff. intros (x & y & ->). exists (a ++ x), y.
  now rewrite <- !app_assoc.
Qed.

Lemma contains_cons (k : str) (c : char) (s : str) :
  contains k s = true -> contains k (c :: s) = true.
Proof. intros H. simpl. rewrite H. apply orb_true_r. Qed.

Lemma contains_starts (k s : str) :
  starts k s = true -> contains k s = true.
Proof.
  destruct s; simpl; [auto | intros ->; reflexivity].
Qed.

Lemma contains_trans (a b s : str) :
  contains a b = true -> contains b s = true -> contains a s = true.
Proof.
  rewrite !contains_iff. intros (x & y & ->) (u & v & ->).
  exists (u ++ x), (y ++ v). now rewrite <- !app_assoc.
Qed.

(** An occurrence of [k] in [a ++ b] begins inside [a] or lies in [b]. *)
Lemma contains_app_inv (k a b : str) :
  contains k (a ++ b) = true ->
  (exists a1 a2, a = a1 ++ a2 /\ a2 <> [] /\ starts k (a2 ++ b) = true)
  \/ contains k b = true.
Proof.
  induction a as [|c a IH]; simpl; [now right|].
  intros H. apply orb_true_iff in H as [H | H].
  - left. exists [], (c :: a). repeat split; [discriminate | exact H].
  - destruct (IH H) as [(a1 & a2 & -> & Ha & H1) | H1]; [left | now right].
    exists (c :: a1), a2. auto.
Qed.

Lemma contains_nil (s : str) : contains [] s = true.
Proof. destruct s; reflexivity. Qed.

Lemma contains_false_nonempty (k s : str) : contains k s = false -> k <> [].
Proof. intros H ->. now rewrite contains_nil in H. Qed.

(** *** Unfolding [replace] *)

Lemma replace_from_skip (old new : str) (k : nat) (s : str) :
  replace_from old new k s = replace_from old new 0 (skipn k s).
Proof.
  revert k; induction s as [|c s IH]; intros [|k]; try reflexivity.
  simpl skipn. rewrite <- IH. reflexivity.
Qed.

Lemma replace_nil (old new : str) : old <> [] -> replace old new [] = [].
Proof. destruct old; [congruence | reflexivity]. Qed.

Lemma replace_app (old new t : str) :
  old <> [] -> replace old new (old ++ t) = new ++ replace old new t.
Proof.
  destruct old as [|x old]; [congruence | intros _].
  unfold replace. change ((x :: old) ++ t) with (x :: old ++ t).
  unfold replace_from at 1; fold replace_from.
  change (x :: old ++ t) with ((x :: old) ++ t). rewrite starts_app.
  rewrite replace_from_skip.
  replace (length (x :: old) - 1)%nat with (length old) by (simpl; lia).
  rewrite skipn_app, skipn_all, Nat.sub_diag. reflexivity.
Qed.

Lemma replace_cons (old new : str) (c : char) (t : str) :
  starts old (c :: t) = false ->
  replace old new (c :: t) = c :: replace old new t.
Proof.
  destruct old as [|x old]; [discriminate | intros H].
  unfold replace. unfold replace_from at 1; fold replace_from.
  rewrite H. reflexivity.
Qed.

(** The scan as an induction principle: a text is empty, begins with a
    match, or begins with a character that starts no match. *)
Lemma replace_ind (old : str) (P : str -> Prop) :
  old <> [] ->
  P [] ->
  (forall t, P t -> P (old ++ t)) ->
  (forall c t, starts old (c :: t) = false -> P t -> P (c :: t)) ->
  forall s, P s.
Proof.
  intros Hold H0 Hm Hc s.
  remember (length s) as m eqn:Hlen.
  revert s Hlen; induction m as [m IH] using lt_wf_ind; intros s Hlen.
  destruct s as [|c t]; [exact H0|].
  destruct (starts old (c :: t)) eqn:E.
  - apply starts_iff in E as [r E]. rewrite E. apply Hm.
    apply (IH (length r)); [|reflexivity].
    rewrite Hlen, E, length_app. destruct old; [congruence | simpl; lia].
  - apply Hc; [exact E|]. apply (IH (length t)); [|reflexivity].
    rewrite Hlen. simpl; lia.
Qed.

Lemma replace_absent (old new s : str) :
  contains old s = false -> replace old new s = s.
Proof.
  induction s as [|c s IH]; intros H.
  - apply replace_nil. now apply contains_false_nonempty in H.
  - simpl in H. apply orb_false_iff in H as [H1 H2].
    rewrite replace_cons by exact H1. now rewrite IH.
Qed.

Lemma replace_same (old s : str) : replace old old s = s.
Proof.
  destruct old as [|x old].
  - unfold replace. simpl. induction s as [|c s IH]; simpl; congruence.
  - revert s. apply (@replace_ind (x :: old)); [discriminate | | |].
    + reflexivity.
    + intros t IH. rewrite replace_app by discriminate. congruence.
    + intros c t H IH. rewrite replace_cons by assumption. congruence.
Qed.

(** *** Overlap facts *)

Lemma compat_sym (a b : str) : compat a b = compat b a.
Proof. apply orb_comm. Qed.

Lemma reaches_cons_false (c : char) (k n : str) :
  reaches (c :: k) n = false -> reaches k n = false.
Proof. simpl. intros H. now apply orb_false_iff in H. Qed.

Lemma reaches_app_false (a b n : str) :
  reaches (a ++ b) n = false -> reaches b n = false.
Proof.
  induction a as [|c a IH]; [auto | intros H].
  apply IH. apply (reaches_cons_false _ _ _ H).
Qed.

Lemma reaches_intro (a1 a2 n : str) :
  a2 <> [] -> compat a2 n = true -> reaches (a1 ++ a2) n = true.
Proof.
  intros Ha H. induction a1 as [|c a1 IH]; simpl.
  - destruct a2; [congruence|]. simpl. now rewrite H.
  - rewrite IH. apply orb_true_r.
Qed.

(** A string that begins [a ++ b], or is a prefix of it, is compatible
    with [a] once [a] is not empty. *)
Lemma starts_app_compat (k a b : str) :
  starts k (a ++ b) = true -> compat a k = true.
Proof.
  intros H. unfold compat.
  destruct (starts_app_inv _ _ _ H) as [H1 | (t & -> & _ & _)].
  - rewrite H1. apply orb_true_r.
  - now rewrite starts_app.
Qed.

Lemma reaches_false_starts (a k t : str) :
  a <> [] -> reaches a k = false -> starts k (a ++ t) = false.
Proof.
  intros Ha H. destruct (starts k (a ++ t)) eqn:E; [|reflexivity].
  apply starts_app_compat in E.
  pose proof (reaches_intro [] _ _ Ha E) as R. simpl in R. congruence.
Qed.

(** *** What a replacement leaves untouched *)

(** A stretch of text no match can begin in is copied as it is. *)
Lemma replace_skip_prefix (old new a t : str) :
  reaches a old = false ->
  replace old new (a ++ t) = a ++ replace old new t.
Proof.
  induction a as [|c a IH]; [reflexivity | intros H].
  change ((c :: a) ++ t) with (c :: a ++ t).
  rewrite replace_cons.
  - rewrite IH; [reflexivity | apply (reaches_cons_false _ _ _ H)].
  - apply (@reaches_false_starts (c :: a) old t); [discriminate | exact H].
Qed.

(** At least one copy of [new] stands where [old] stood. *)
Lemma replace_puts_new (old new s : str) :
  old <> [] -> contains old s = true -> contains new (replace old new s) = true.
Proof.
  intros Hold. revert s.
  refine (@replace_ind old _ Hold _ _ _); cbv beta.
  - intros H. apply starts_nil_r in H. congruence.
  - intros t _ _. rewrite replace_app by assumption.
    apply contains_starts, starts_app.
  - intros c t H IH H1. simpl in H1. rewrite H in H1. simpl in H1.
    rewrite replace_cons by assumption. apply contains_cons. auto.
Qed.

(** An occurrence of [w] that no match can touch survives. *)
Lemma replace_keeps (old new w s : str) :
  old <> [] -> overlaps old w = false ->
  contains w s = true -> contains w (replace old new s) = true.
Proof.
  intros Hold Hov. apply orb_false_iff in Hov as [Hov1 Hov2].
  revert s. refine (@replace_ind old _ Hold _ _ _); cbv beta.
  - now rewrite replace_nil.
  - intros t IH H. rewrite replace_app by assumption. apply contains_app_r.
    apply contains_app_inv in H as [(a1 & a2 & E & Ha & H) | H]; [|auto].
    apply starts_app_compat in H.
    rewrite E, (reaches_intro a1 _ _ Ha H) in Hov1. discriminate.
  - intros c t H IH H1. simpl in H1. apply orb_true_iff in H1 as [H1 | H1].
    + apply starts_iff in H1 as [b ->].
      rewrite replace_skip_prefix by assumption.
      apply contains_starts, starts_app.
    + rewrite replace_cons by assumption. apply contains_cons. auto.
Qed.

(** *** What a replacement can create *)

(** A string that cannot run into a copy of [new] begins the replaced
    text only if it began the original text. *)
Lemma starts_replace_inv (old new : str) :
  old <> [] ->
  forall s k, reaches k new = false ->
    starts k (replace old new s) = true -> starts k s = true.
Proof.
  intros Hold. refine (@replace_ind old _ Hold _ _ _); cbv beta.
  - intros k _. now rewrite replace_nil.
  - intros t _ k Hr H. rewrite replace_app in H by assumption.
    destruct k as [|x k]; [reflexivity|].
    apply starts_app_compat in H. rewrite compat_sym in H.
    simpl in Hr. rewrite H in Hr. discriminate.
  - intros c t Hs IH k Hr H. rewrite replace_cons in H by assumption.
    destruct k as [|x k]; [reflexivity|]. simpl in H |- *.
    apply andb_true_iff in H as [H1 H2]. rewrite H1. simpl.
    apply IH; [apply (reaches_cons_false _ _ _ Hr) | exact H2].
Qed.

Lemma residuals_intro (a1 a2 t : str) :
  a2 <> [] -> t <> [] -> In t (residuals (a1 ++ a2) (a2 ++ t)).
Proof.
  intros Ha Ht. induction a1 as [|c a1 IH].
  - destruct a2 as [|y a2]; [congruence|].
    change ([] ++ y :: a2) with (y :: a2). unfold residuals; fold residuals.
    apply in_or_app. left.
    rewrite starts_app. simpl andb.
    match goal with
    | |- context [(?a <? ?b)%nat] => assert (L : (a <? b)%nat = true)
    end.
    { apply Nat.ltb_lt. rewrite length_app.
      destruct t; [congruence | simpl; lia]. }
    rewrite L, skipn_app, skipn_all, Nat.sub_diag. now left.
  - change ((c :: a1) ++ a2) with (c :: a1 ++ a2).
    unfold residuals; fold residuals. apply in_or_app. now right.
Qed.

(** Where an occurrence of [k] in the replaced text comes from: [k] was
    there already, or [k] begins in the tail of a copy of [new] and its
    remainder followed the replaced [old]. *)
Lemma contains_replace_inv (old new k : str) :
  old <> [] -> reaches (tl k) new = false -> contains k new = false ->
  forall s, contains k (replace old new s) = true ->
    (k <> old /\ contains k s = true)
    \/ Exists (fun t => contains (old ++ t) s = true) (residuals new k).
Proof.
  intros Hold Hr Hin. refine (@replace_ind old _ Hold _ _ _); cbv beta.
  - rewrite replace_nil by assumption. intros H. apply starts_nil_r in H.
    subst k. now rewrite contains_nil in Hin.
  - intros t0 IH H. rewrite replace_app in H by assumption.
    apply contains_app_inv in H as [(a1 & a2 & E & Ha & H) | H].
    + apply starts_app_inv in H as [H | (t & Ek & Ht & H)].
      * apply contains_starts in H. apply (contains_app_r _ a1) in H.
        rewrite <- E in H. congruence.
      * right. apply Exists_exists. exists t. split.
        { rewrite E, Ek. now apply residuals_intro. }
        assert (Rt : reaches t new = false).
        { destruct a2 as [|y a2]; [congruence|]. subst k. simpl in Hr.
          apply (reaches_app_false _ _ _ Hr). }
        apply (starts_replace_inv old new Hold _ _ Rt) in H.
        apply starts_iff in H as [r ->]. rewrite app_assoc.
        apply contains_starts, starts_app.
    + destruct (IH H) as [[Hk H1] | H1].
      * left. split; [exact Hk | now apply contains_app_r].
      * right. revert H1. apply Exists_impl. intros t.
        apply contains_app_r.
  - intros c t0 Hs IH H. rewrite replace_cons in H by assumption.
    simpl in H. apply orb_true_iff in H as [H | H].
    + left. destruct k as [|x k]; [now rewrite contains_nil in Hin|].
      simpl in H, Hr. apply andb_true_iff in H as [H1 H2].
      apply (starts_replace_inv old new Hold _ _ Hr) in H2.
      assert (S1 : starts (x :: k) (c :: t0) = true)
        by (simpl; now rewrite H1, H2).
      split; [intros E0; rewrite <- E0 in Hs; congruence|].
      now apply contains_starts.
    + destruct (IH H) as [[Hk H1] | H1].
      * left. split; [exact Hk | now apply contains_cons].
      * right. revert H1. apply Exists_impl. intros t.
        apply contains_cons.
Qed.

Lemma excluded_sound (absent : list str) (w s : str) :
  (forall a, In a absent -> contains a s = false) ->
  excluded absent w = true -> contains w s = false.
Proof.
  intros Habs H. apply existsb_exists in H as (a & Ha & H).
  destruct (contains w s) eqn:E; [|reflexivity].
  rewrite <- (Habs a Ha). symmetry. apply (contains_trans a w s H E).
Qed.

Lemma step_safe_sound (absent : list str) (old new k s : str) :
  (forall a, In a absent -> contains a s = false) ->
  step_safe absent old new k = true ->
  contains k s = false \/ k = old ->
  contains k (replace old new s) = false.
Proof.
  intros Habs Hsafe Hk. unfold step_safe in Hsafe.
  destruct old as [|y old]; [discriminate|].
  destruct k as [|x k]; [discriminate|].
  apply andb_true_iff in Hsafe as [Hsafe Hres].
  apply andb_true_iff in Hsafe as [Hr Hin].
  apply negb_true_iff in Hr, Hin.
  destruct (contains (x :: k) (replace (y :: old) new s)) eqn:E;
    [exfalso | reflexivity].
  apply contains_replace_inv in E; [| discriminate | exact Hr | exact Hin].
  destruct E as [[Hne H] | H].
  - destruct Hk as [Hk | Hk]; congruence.
  - apply Exists_exists in H as (t & Ht & H).
    rewrite forallb_forall in Hres. specialize (Hres t Ht).
    rewrite (excluded_sound absent _ s Habs Hres) in H. discriminate.
Qed.

(** After a table has been run, none of its broken keys is left. *)
Lemma table_safe_sound (table : list (str * str)) :
  forall absent s,
    table_safe absent table = true ->
    (forall a, In a absent -> contains a s = false) ->
    forall a, In a (broken_keys table ++ absent) ->
      contains a (replace_all table s) = false.
Proof.
  induction table as [|[old new] rest IH]; intros absent s Hsafe Habs a Ha.
  - simpl in *. auto.
  - unfold replace_all; simpl fold_left; fold (replace_all rest).
    unfold broken_keys in Ha; simpl in Ha, Hsafe; fold (broken_keys rest) in Ha.
    destruct (str_eqb old new) eqn:E.
    + apply str_eqb_eq in E. subst new. rewrite replace_same.
      simpl in Ha. now apply (IH absent).
    + simpl in Ha. apply andb_true_iff in Hsafe as [Hstep Hrest].
      apply andb_true_iff in Hstep as [Hold Hstep].
      rewrite forallb_forall in Hstep.
      apply (IH (old :: absent)); [exact Hrest | |].
      * intros b [<- | Hb]; apply step_safe_sound with (absent := absent);
          auto.
      * destruct Ha as [<- | Ha]; [apply in_or_app; right; now left|].
        apply in_app_or in Ha as [Ha | Ha]; apply in_or_app;
          [now left | right; now right].
Qed.

(** *** Independent replacements commute *)

Lemma independent_inv (o1 n1 o2 n2 : str) :
  independent (o1, n1) (o2, n2) = true ->
  (reaches o1 o2 = false /\ reaches o2 o1 = false)
  /\ (reaches o1 n2 = false /\ reaches n2 o1 = false)
  /\ (reaches o2 n1 = false /\ reaches n1 o2 = false)
  /\ o1 <> [] /\ o2 <> [].
Proof.
  unfold independent, overlaps. intros H.
  repeat (apply andb_true_iff in H as [H ?]).
  repeat match goal with
         | H : negb _ = true |- _ =>
             apply negb_true_iff, orb_false_iff in H
         end.
  destruct o1, o2; try discriminate. repeat split; try tauto; discriminate.
Qed.

Lemma replace_cons_through (old new o n : str) (c : char) (t : str) :
  old <> [] -> reaches o new = false ->
  starts o (c :: t) = false -> starts old (c :: t) = false ->
  replace o n (replace old new (c :: t))
  = c :: replace o n (replace old new t).
Proof.
  intros Hold Hr H1 H2.
  destruct (starts o (replace old new (c :: t))) eqn:E.
  - apply (starts_replace_inv old new Hold _ _ Hr) in E. congruence.
  - rewrite (replace_cons old new c t H2) in E |- *.
    now apply replace_cons.
Qed.

Lemma replace_comm (o1 n1 o2 n2 : str) :
  independent (o1, n1) (o2, n2) = true ->
  forall s,
    replace o1 n1 (replace o2 n2 s) = replace o2 n2 (replace o1 n1 s).
Proof.
  intros H. apply independent_inv in H
    as ((R12 & R21) & (Ro1n2 & Rn2o1) & (Ro2n1 & Rn1o2) & H1 & H2).
  intros s. remember (length s) as m eqn:Hlen.
  revert s Hlen; induction m as [m IH] using lt_wf_ind; intros s Hlen.
  destruct s as [|c t]; [now rewrite !replace_nil by assumption|].
  destruct (starts o1 (c :: t)) eqn:E1.
  - apply starts_iff in E1 as [r E1]. rewrite E1.
    rewrite (replace_skip_prefix o2 n2 o1 r R12).
    rewrite !replace_app by assumption.
    rewrite (replace_skip_prefix o2 n2 n1 _ Rn1o2). f_equal.
    apply (IH (length r)); [|reflexivity].
    rewrite Hlen, E1, length_app. destruct o1; [congruence | simpl; lia].
  - destruct (starts o2 (c :: t)) eqn:E2.
    + apply starts_iff in E2 as [r E2]. rewrite E2.
      rewrite (replace_skip_prefix o1 n1 o2 r R21).
      rewrite !replace_app by assumption.
      rewrite (replace_skip_prefix o1 n1 n2 _ Rn2o1). f_equal.
      apply (IH (length r)); [|reflexivity].
      rewrite Hlen, E2, length_app. destruct o2; [congruence | simpl; lia].
    + rewrite (replace_cons_through o2 n2 o1 n1 c t) by assumption.
      rewrite (replace_cons_through o1 n1 o2 n2 c t) by assumption.
      f_equal. apply (IH (length t)); [|reflexivity].
      rewrite Hlen. simpl; lia.
Qed.

(** Two entries commute when applying them in either order gives the
    same text. *)
Lemma pairwise_independent_comm (table : list (str * str)) :
  pairwise_independent table = true ->
  forall e1 e2, In e1 table -> In e2 table ->
    forall s, replace (fst e1) (snd e1) (replace (fst e2) (snd e2) s)
              = replace (fst e2) (snd e2) (replace (fst e1) (snd e1) s).
Proof.
  induction table as [|e rest IH]; [intros _ e1 e2 []|].
  simpl. intros H. apply andb_true_iff in H as [Hall Hrest].
  rewrite forallb_forall in Hall.
  intros e1 e2 [<- | H1] [<- | H2] s.
  - reflexivity.
  - destruct e as [o1 n1], e2 as [o2 n2].
    apply replace_comm. now apply Hall.
  - destruct e as [o1 n1], e1 as [o2 n2]. symmetry.
    apply replace_comm. now apply Hall.
  - now apply IH.
Qed.

Lemma replace_all_permutation (t1 t2 : list (str * str)) :
  Permutation t1 t2 ->
  (forall e1 e2, In e1 t1 -> In e2 t1 ->
     forall s, replace (fst e1) (snd e1) (replace (fst e2) (snd e2) s)
               = replace (fst e2) (snd e2) (replace (fst e1) (snd e1) s)) ->
  forall s, replace_all t1 s = replace_all t2 s.
Proof.
  induction 1 as [|e l l' Hp IH|e1 e2 l|l l' l'' Hp1 IH1 Hp2 IH2];
    intros Hc s.
  - reflexivity.
  - unfold replace_all; simpl; fold (replace_all l); fold (replace_all l').
    apply IH. intros a b Ha Hb. apply Hc; now right.
  - unfold replace_all; simpl; fold (replace_all l). f_equal.
    apply Hc; [right; now left | now left].
  - rewrite IH1 by exact Hc. apply IH2.
    intros a b Ha Hb. apply Hc.
    + apply Permutation_in with (l := l'); [now apply Permutation_sym | exact Ha].
    + apply Permutation_in with (l := l'); [now apply Permutation_sym | exact Hb].
Qed.

(** *** Counting occurrences *)

Lemma count_from_skip (w : str) (k : nat) (s : str) :
  count_from w k s = count_from w 0 (skipn k s).
Proof.
  revert k; induction s as [|c s IH]; intros [|k]; try reflexivity.
  simpl skipn. rewrite <- IH. reflexivity.
Qed.

Lemma count_nil (w : str) : w <> [] -> count w [] = 0.
Proof. destruct w; [congruence | reflexivity]. Qed.

Lemma count_app (w t : str) : w <> [] -> count w (w ++ t) = S (count w t).
Proof.
  destruct w as [|x w]; [congruence | intros _].
  unfold count. change ((x :: w) ++ t) with (x :: w ++ t).
  unfold count_from at 1; fold count_from.
  change (x :: w ++ t) with ((x :: w) ++ t). rewrite starts_app.
  rewrite count_from_skip.
  replace (length (x :: w) - 1)%nat with (length w) by (simpl; lia).
  rewrite skipn_app, skipn_all, Nat.sub_diag. reflexivity.
Qed.

Lemma count_cons (w : str) (c : char) (t : str) :
  starts w (c :: t) = false -> count w (c :: t) = count w t.
Proof.
  destruct w as [|x w]; [discriminate | intros H].
  unfold count. unfold count_from at 1; fold count_from.
  rewrite H. reflexivity.
Qed.

Lemma count_skip_prefix (w a t : str) :
  reaches a w = false -> count w (a ++ t) = count w t.
Proof.
  induction a as [|c a IH]; [reflexivity | intros H].
  change ((c :: a) ++ t) with (c :: a ++ t).
  rewrite count_cons.
  - apply IH. apply (reaches_cons_false _ _ _ H).
  - apply (reaches_false_starts (c :: a) w t); [discriminate | exact H].
Qed.

Lemma count_absent (w s : str) : contains w s = false -> count w s = 0.
Proof.
  induction s as [|c s IH]; intros H.
  - apply count_nil. now apply contains_false_nonempty in H.
  - simpl in H. apply orb_false_iff in H as [H1 H2].
    rewrite count_cons by exact H1. auto.
Qed.

(** A string whose tail cannot run into a copy of [new] begins the
    replaced text, past a character that starts no match, only if it
    began the original text. *)
Lemma starts_replace_cons_inv (old new k : str) (c : char) (t : str) :
  old <> [] -> reaches (tl k) new = false ->
  starts old (c :: t) = false ->
  starts k (replace old new (c :: t)) = true -> starts k (c :: t) = true.
Proof.
  intros Hold Hr Hs H. rewrite replace_cons in H by assumption.
  destruct k as [|x k]; [reflexivity|]. simpl in H, Hr |- *.
  apply andb_true_iff in H as [H1 H2]. rewrite H1. simpl.
  apply (starts_replace_inv old new Hold _ _ Hr H2).
Qed.

(** How a replacement changes the number of occurrences of [w], when
    each copy of [old] holds [a] of them, each copy of [new] holds [b],
    and no occurrence of [w] straddles the edge of a copy. *)
Lemma count_replace_gen (old new w : str) (a b : nat) :
  old <> [] -> w <> [] ->
  (forall r, count w (old ++ r) = a + count w r) ->
  (forall r, count w (new ++ r) = b + count w r) ->
  reaches w old = false -> reaches (tl w) new = false ->
  forall s,
    count w (replace old new s) + a * count old s
    = count w s + b * count old s.
Proof.
  intros Hold Hw Ha Hb Hwo Hwn s.
  remember (length s) as m eqn:Hlen.
  revert s Hlen; induction m as [m IH] using lt_wf_ind; intros s Hlen.
  destruct s as [|c t].
  { rewrite replace_nil, !count_nil by assumption. lia. }
  destruct (starts old (c :: t)) eqn:E1.
  - apply starts_iff in E1 as [r E1]. rewrite E1.
    rewrite replace_app, (count_app old) by assumption.
    rewrite Ha, Hb.
    assert (L : length r < m).
    { rewrite Hlen, E1, length_app. destruct old; [congruence | simpl; lia]. }
    specialize (IH _ L r eq_refl). lia.
  - destruct (starts w (c :: t)) eqn:E2.
    + apply starts_iff in E2 as [r E2]. rewrite E2.
      rewrite (replace_skip_prefix old new w r Hwo).
      rewrite !(count_app w) by assumption.
      rewrite (count_skip_prefix old w r Hwo).
      assert (L : length r < m).
      { rewrite Hlen, E2, length_app. destruct w; [congruence | simpl; lia]. }
      specialize (IH _ L r eq_refl). lia.
    + assert (E3 : starts w (replace old new (c :: t)) = false).
      { destruct (starts w (replace old new (c :: t))) eqn:E; [|reflexivity].
        apply starts_replace_cons_inv in E; [congruence | assumption ..]. }
      rewrite replace_cons in E3 |- * by assumption.
      rewrite !count_cons by assumption.
      apply (IH (length t)); [|reflexivity].
      rewrite Hlen. simpl; lia.
Qed.

(** A replacement whose pattern and value [w] cannot touch keeps the
    number of occurrences of [w]. *)
Lemma count_replace_other (old new w : str) :
  old <> [] -> w <> [] ->
  overlaps w old = false -> overlaps w new = false ->
  forall s, count w (replace old new s) = count w s.
Proof.
  intros Hold Hw Ho Hn s.
  apply orb_false_iff in Ho as [Ho1 Ho2].
  apply orb_false_iff in Hn as [Hn1 Hn2].
  pose proof (count_replace_gen old new w 0 0 Hold Hw) as H.
  rewrite <- (Nat.add_0_r (count w (replace old new s))).
  rewrite <- (Nat.add_0_r (count w s)).
  apply (H (fun r => count_skip_prefix w old r Ho2)
           (fun r => count_skip_prefix w new r Hn2) Ho1).
  destruct w as [|x w]; [congruence|]. simpl in Hn1 |- *.
  now apply orb_false_iff in Hn1.
Qed.

(** Replacing [old] by a value it cannot touch, and that cannot overlap
    itself, adds one occurrence of the value per occurrence replaced. *)
Lemma count_replace_value (old new : str) :
  old <> [] -> new <> [] ->
  overlaps new old = false -> reaches (tl new) new = false ->
  forall s, count new (replace old new s) = count new s + count old s.
Proof.
  intros Hold Hnew Ho Hb s.
  apply orb_false_iff in Ho as [Ho1 Ho2].
  pose proof (count_replace_gen old new new 0 1 Hold Hnew) as H.
  specialize (H (fun r => count_skip_prefix new old r Ho2)
                (fun r => count_app new r Hnew) Ho1 Hb s).
  lia.
Qed.

End PyStrFacts.

(* ================================================================= *)
(** * Properties of the loop bodies and patches *)

Module StepFacts.
Import PyStrFacts.

Lemma fix_entry_fst (st : state) (e : str * str) :
  fst (fix_entry st e) = replace (fst e) (snd e) (fst st).
Proof.
  destruct st as [c m], e as [old new]; simpl.
  destruct (contains old c) eqn:E; simpl; [reflexivity|].
  symmetry. now apply replace_absent.
Qed.

Lemma fix_entry_counted_fst (st : state) (e : str * str) :
  fst (fix_entry_counted st e) = replace (fst e) (snd e) (fst st).
Proof.
  destruct st as [c m], e as [old new]; simpl.
  destruct (contains old c) eqn:E; simpl; [reflexivity|].
  symmetry. now apply replace_absent.
Qed.

Lemma replace_all_cons (e : str * str) (table : list (str * str)) (s : str) :
  replace_all (e :: table) s = replace_all table (replace (fst e) (snd e) s).
Proof. reflexivity. Qed.

Lemma fold_fix_entry_fst (table : list (str * str)) (st : state) :
  fst (fold_left fix_entry table st) = replace_all table (fst st).
Proof.
  revert st; induction table as [|e table IH]; intros st; [reflexivity|].
  simpl fold_left. now rewrite IH, fix_entry_fst.
Qed.

Lemma fold_fix_entry_counted_fst (table : list (str * str)) (st : state) :
  fst (fold_left fix_entry_counted table st) = replace_all table (fst st).
Proof.
  revert st; induction table as [|e table IH]; intros st; [reflexivity|].
  simpl fold_left. now rewrite IH, fix_entry_counted_fst.
Qed.

(** Every key of a table is the same as its value or one of the broken
    keys. *)
Lemma key_same_or_broken (table : list (str * str)) (e : str * str) :
  In e table -> fst e = snd e \/ In (fst e) (broken_keys table).
Proof.
  intros H. destruct (str_eqb (fst e) (snd e)) eqn:E.
  - left. now apply str_eqb_eq.
  - right. unfold broken_keys. apply in_map, filter_In.
    split; [exact H | now rewrite E].
Qed.

(** A table changes nothing in a text where its broken keys are absent. *)
Lemma replace_all_clean (table : list (str * str)) (s : str) :
  (forall e, In e table -> fst e = snd e \/ contains (fst e) s = false) ->
  replace_all table s = s.
Proof.
  induction table as [|e table IH]; intros H; [reflexivity|].
  rewrite replace_all_cons.
  assert (E : replace (fst e) (snd e) s = s).
  { destruct (H e (or_introl eq_refl)) as [<- | H1].
    - apply replace_same.
    - now apply replace_absent. }
  rewrite E. apply IH. intros e' He'. apply H. now right.
Qed.

Lemma replace_all_absent_keys (table : list (str * str)) (s : str) :
  (forall k, In k (broken_keys table) -> contains k s = false) ->
  replace_all table s = s.
Proof.
  intros H. apply replace_all_clean. intros e He.
  destruct (key_same_or_broken table e He) as [E | E]; auto.
Qed.

(** *** Counting through a table *)

Lemma nonempty_true (w : str) : nonempty w = true -> w <> [].
Proof. destruct w; [discriminate | discriminate]. Qed.

Lemma replace_all_app (t1 t2 : list (str * str)) (s : str) :
  replace_all (t1 ++ t2) s = replace_all t2 (replace_all t1 s).
Proof. unfold replace_all. apply fold_left_app. Qed.

Lemma count_replace_untouched (w : str) (e : str * str) (s : str) :
  w <> [] -> untouched w e = true ->
  count w (replace (fst e) (snd e) s) = count w s.
Proof.
  intros Hw H. unfold untouched in H.
  apply andb_true_iff in H as [H H2]. apply andb_true_iff in H as [H0 H1].
  apply negb_true_iff in H1, H2. apply nonempty_true in H0.
  now apply count_replace_other.
Qed.

Lemma count_replace_all_untouched (w : str) (table : list (str * str)) :
  w <> [] -> forallb (untouched w) table = true ->
  forall s, count w (replace_all table s) = count w s.
Proof.
  intros Hw. induction table as [|e table IH]; intros H s; [reflexivity|].
  simpl in H. apply andb_true_iff in H as [H1 H2].
  rewrite replace_all_cons, IH by exact H2.
  now apply count_replace_untouched.
Qed.

Lemma entry_counts_sound
    (before : list (str * str)) (k v : str) (after : list (str * str)) :
  entry_counts before k v after = true ->
  forall x,
    count v (replace_all (before ++ (k, v) :: after) x)
    = count v x + count k x.
Proof.
  unfold entry_counts. intros H x.
  repeat (apply andb_true_iff in H as [H ?]).
  repeat match goal with
         | H : negb _ = true |- _ => apply negb_true_iff in H
         | H : nonempty _ = true |- _ => apply nonempty_true in H
         end.
  rewrite replace_all_app, replace_all_cons. cbn [fst snd].
  rewrite count_replace_all_untouched by assumption.
  rewrite count_replace_value by assumption.
  now rewrite !count_replace_all_untouched by assumption.
Qed.

Lemma table_counts_sound (after : list (str * str)) :
  forall before,
    table_counts before after = true ->
    forall k v, In (k, v) after ->
    forall x,
      count v (replace_all (before ++ after) x) = count v x + count k x.
Proof.
  induction after as [|[k0 v0] rest IH]; intros before H k v Hin x;
    [destruct Hin|].
  simpl in H. apply andb_true_iff in H as [H1 H2].
  destruct Hin as [E | Hin].
  - injection E as <- <-. now apply entry_counts_sound.
  - specialize (IH _ H2 k v Hin x).
    now rewrite <- app_assoc in IH.
Qed.

(** The counter of the counting loop: each entry adds the number of
    occurrences of its key in the content of that moment. *)
Lemma fix_entry_counted_snd (st : state) (e : str * str) :
  snd (fix_entry_counted st e) = snd st + count (fst e) (fst st).
Proof.
  destruct st as [c m], e as [old new]; simpl.
  destruct (contains old c) eqn:E; simpl; [reflexivity|].
  rewrite count_absent by exact E. lia.
Qed.

Lemma fold_counted_snd (after : list (str * str)) :
  forall before x st,
    keys_untouched before after = true ->
    fst st = replace_all before x ->
    snd (fold_left fix_entry_counted after st)
    = snd st + list_sum (map (fun e => count (fst e) x) after).
Proof.
  induction after as [|[k v] rest IH]; intros before x st H Hst.
  - simpl. lia.
  - simpl in H. apply andb_true_iff in H as [H H2].
    apply andb_true_iff in H as [H0 H1]. apply nonempty_true in H0.
    simpl fold_left.
    rewrite (IH (before ++ [(k, v)]) x).
    + rewrite fix_entry_counted_snd. cbn [fst map list_sum].
      rewrite Hst, count_replace_all_untouched by assumption.
      change (list_sum (?a :: ?l)) with (a + list_sum l). simpl list_sum. lia.
    + exact H2.
    + rewrite fix_entry_counted_fst, replace_all_app, Hst. reflexivity.
Qed.

(** *** Strings a table leaves alone *)

Lemma replace_all_keeps_present (w : str) (table : list (str * str)) :
  forallb (keeps_present w) table = true ->
  forall s, contains w s = true -> contains w (replace_all table s) = true.
Proof.
  induction table as [|e table IH]; intros H s Hs; [exact Hs|].
  simpl in H. apply andb_true_iff in H as [H1 H2].
  rewrite replace_all_cons. apply IH; [exact H2|].
  apply orb_true_iff in H1 as [H1 | H1].
  - apply str_eqb_eq in H1. now rewrite <- H1, replace_same.
  - apply andb_true_iff in H1 as [H0 H1].
    apply nonempty_true in H0. apply negb_true_iff in H1.
    now apply replace_keeps.
Qed.

Lemma replace_all_keeps_absent (w : str) (table : list (str * str)) :
  forallb (keeps_absent w) table = true ->
  forall s, contains w s = false -> contains w (replace_all table s) = false.
Proof.
  induction table as [|e table IH]; intros H s Hs; [exact Hs|].
  simpl in H. apply andb_true_iff in H as [H1 H2].
  rewrite replace_all_cons. apply IH; [exact H2|].
  apply orb_true_iff in H1 as [H1 | H1].
  - apply str_eqb_eq in H1. now rewrite <- H1, replace_same.
  - apply step_safe_sound with (absent := []); auto. intros a [].
Qed.

(** *** The counter of the plain loop *)

(** An entry adds at most 1, however many occurrences it replaces. *)
Lemma fix_entry_snd_le (st : state) (e : str * str) :
  snd (fix_entry st e) <= snd st + 1.
Proof.
  destruct st as [c m], e as [old new]; simpl.
  destruct (contains old c); simpl; lia.
Qed.

Lemma fold_fix_entry_snd_le (table : list (str * str)) (st : state) :
  snd (fold_left fix_entry table st) <= snd st + length table.
Proof.
  revert st; induction table as [|e table IH]; intros st; simpl; [lia|].
  specialize (IH (fix_entry st e)).
  pose proof (fix_entry_snd_le st e). lia.
Qed.

Lemma quote_patch_snd_le (old closed new : str) (st : state) :
  snd (quote_patch old closed new st) <= snd st + 1.
Proof.
  destruct st as [c m]; unfold quote_patch.
  destruct (contains old c && negb (contains closed c)); simpl; lia.
Qed.

Lemma block_patch_snd_le (old new : str) (w : nat) (st : state) :
  snd (block_patch old new w st) <= snd st + w.
Proof.
  destruct st as [c m]; unfold block_patch.
  destruct (contains old c); simpl; lia.
Qed.

(** *** Clean texts *)

(** The table loop finds nothing to do in a text without its keys. *)
Lemma fold_fix_entry_clean (table : list (str * str)) (x : str) (n : nat) :
  (forall k v, In (k, v) table -> contains k x = false) ->
  fold_left fix_entry table (x, n) = (x, n).
Proof.
  induction table as [|[k v] table IH]; intros H; [reflexivity|].
  simpl. rewrite (H k v (or_introl eq_refl)). apply IH.
  intros k' v' H'. apply (H k' v'). now right.
Qed.

Lemma fold_fix_entry_counted_clean
      (table : list (str * str)) (x : str) (n : nat) :
  (forall k v, In (k, v) table -> contains k x = false) ->
  fold_left fix_entry_counted table (x, n) = (x, n).
Proof.
  induction table as [|[k v] table IH]; intros H; [reflexivity|].
  simpl. rewrite (H k v (or_introl eq_refl)). apply IH.
  intros k' v' H'. apply (H k' v'). now right.
Qed.

(** Keys tested one by one. *)
Lemma keys_absent_by_test (table : list (str * str)) (x : str) :
  forallb (fun e => negb (contains (fst e) x)) table = true ->
  forall k v, In (k, v) table -> contains k x = false.
Proof.
  intros H k v Hin. rewrite forallb_forall in H.
  apply negb_true_iff. apply (H (k, v) Hin).
Qed.

Lemma broken_key_in (table : list (str * str)) (k v : str) :
  In (k, v) table -> k <> v -> In k (broken_keys table).
Proof.
  intros Hin Hne.
  destruct (key_same_or_broken table (k, v) Hin) as [E | H];
    [contradiction | exact H].
Qed.

(** *** Quote patches *)

Lemma quote_patch_fst (old closed new : str) (st : state) :
  fst (quote_patch old closed new st)
  = if contains old (fst st) && negb (contains closed (fst st))
    then replace old new (fst st) else fst st.
Proof.
  destruct st as [c m]. unfold quote_patch. cbn [fst].
  now destruct (contains old c && negb (contains closed c)).
Qed.

(** The quote patch when its guard is on. *)
Lemma quote_patch_applied (old closed new : str) (st : state) :
  contains old (fst st) = true -> contains closed (fst st) = false ->
  quote_patch old closed new st = (replace old new (fst st), snd st + 1).
Proof.
  destruct st as [c n]. cbn [fst snd]. intros H1 H2.
  unfold quote_patch. now rewrite H1, H2.
Qed.

Lemma quote_patch_settled_id (old closed new : str) (st : state) :
  settled old closed (fst st) -> quote_patch old closed new st = st.
Proof.
  destruct st as [c m]. unfold quote_patch. cbn [fst].
  intros [H | H]; rewrite H; simpl; [reflexivity|].
  now rewrite andb_false_r.
Qed.

Lemma quote_patch_settles (old closed new : str) (st : state) :
  old <> [] -> contains closed new = true ->
  settled old closed (fst (quote_patch old closed new st)).
Proof.
  intros Hold Hcl. rewrite quote_patch_fst.
  destruct (contains old (fst st)) eqn:E1; simpl; [|now left].
  destruct (contains closed (fst st)) eqn:E2; simpl; [now right|].
  right. apply (contains_trans closed new); [exact Hcl|].
  now apply replace_puts_new.
Qed.

(** A replacement that can neither create [old] nor touch [closed]
    leaves a settled guard settled. *)
Lemma replace_keeps_settled (o n old closed c : str) :
  step_safe [] o n old = true -> overlaps o closed = false ->
  settled old closed c -> settled old closed (replace o n c).
Proof.
  intros Hsafe Hov [H | H].
  - left. apply step_safe_sound with (absent := []); auto.
    intros a [].
  - right. apply replace_keeps; auto.
    unfold step_safe in Hsafe. destruct o; discriminate.
Qed.

Lemma quote_patch_keeps_settled (o cl n old closed : str) (st : state) :
  step_safe [] o n old = true -> overlaps o closed = false ->
  settled old closed (fst st) ->
  settled old closed (fst (quote_patch o cl n st)).
Proof.
  intros Hsafe Hov H. rewrite quote_patch_fst.
  destruct (contains o (fst st) && negb (contains cl (fst st))); [|exact H].
  now apply replace_keeps_settled.
Qed.

Lemma quote_patch_keeps_absent
      (absent : list str) (o cl n : str) (st : state) :
  forallb (step_safe absent o n) absent = true ->
  (forall a, In a absent -> contains a (fst st) = false) ->
  forall a, In a absent -> contains a (fst (quote_patch o cl n st)) = false.
Proof.
  intros Hsafe Habs a Ha. rewrite quote_patch_fst.
  destruct (contains o (fst st) && negb (contains cl (fst st))); [|auto].
  rewrite forallb_forall in Hsafe.
  apply step_safe_sound with (absent := absent); auto.
Qed.

Lemma quote_patch_keeps_present (o cl n w : str) (st : state) :
  o <> [] -> overlaps o w = false ->
  contains w (fst st) = true ->
  contains w (fst (quote_patch o cl n st)) = true.
Proof.
  intros Ho Hov H. rewrite quote_patch_fst.
  destruct (contains o (fst st) && negb (contains cl (fst st))); [|exact H].
  now apply replace_keeps.
Qed.

Lemma quote_patch_keeps_one_absent (o cl n w : str) (st : state) :
  step_safe [] o n w = true ->
  contains w (fst st) = false ->
  contains w (fst (quote_patch o cl n st)) = false.
Proof.
  intros Hsafe H. rewrite quote_patch_fst.
  destruct (contains o (fst st) && negb (contains cl (fst st))); [|exact H].
  apply step_safe_sound with (absent := []); auto. intros a [].
Qed.

(** *** The block patch *)

Lemma block_patch_fst (old new : str) (w : nat) (st : state) :
  fst (block_patch old new w st) = replace old new (fst st).
Proof.
  destruct st as [c m]; simpl.
  destruct (contains old c) eqn:E; simpl; [reflexivity|].
  symmetry. now apply replace_absent.
Qed.

End StepFacts.

(* ================================================================= *)
(** * The three scripts *)

Module FinalFixFacts.
Import PyStrFacts StepFacts FinalFix.

Lemma final_table_fst (x : str) : fst (table_loop x) = replace_all fixes x.
Proof. unfold table_loop. now rewrite fold_fix_entry_fst. Qed.

Lemma final_table_keys_absent (x : str) (k : str) :
  In k (broken_keys fixes) -> contains k (fst (table_loop x)) = false.
Proof.
  intros Hk. rewrite final_table_fst.
  apply table_safe_sound with (absent := []).
  - vm_compute; reflexivity.
  - intros a [].
  - now rewrite app_nil_r.
Qed.

Lemma final_keys_absent (x : str) (k : str) :
  In k (broken_keys fixes) -> contains k (fst (transform x)) = false.
Proof.
  unfold transform, patch_quote.
  apply quote_patch_keeps_absent; [vm_compute; reflexivity|].
  apply final_table_keys_absent.
Qed.

Lemma final_transform_settled (x : str) :
  settled title_open title_closed (fst (transform x)).
Proof.
  unfold transform, patch_quote. apply quote_patch_settles; [discriminate|].
  apply contains_starts, starts_refl.
Qed.

(** A text with no broken key and a settled guard is left as it is. *)
Lemma final_fixed_point (y : str) :
  (forall k, In k (broken_keys fixes) -> contains k y = false) ->
  settled title_open title_closed y ->
  fst (transform y) = y.
Proof.
  intros Hk Hs. unfold transform, patch_quote.
  assert (E : fst (table_loop y) = y).
  { rewrite final_table_fst. now apply replace_all_absent_keys. }
  rewrite quote_patch_settled_id; [exact E | now rewrite E].
Qed.

Lemma final_idempotent (x : str) :
  fst (transform (fst (transform x))) = fst (transform x).
Proof.
  apply final_fixed_point.
  - intros k. apply final_keys_absent.
  - apply final_transform_settled.
Qed.

(** The quote patch keeps the number of occurrences of every value of
    the table.  The third value lies inside the patched attribute, once
    before and once after. *)
Lemma final_quote_count (v : str) :
  In v (map snd fixes) ->
  forall s, count v (replace title_open title_closed s) = count v s.
Proof.
  intros Hv s. simpl in Hv.
  destruct Hv as [<- | [<- | [<- | [<- | []]]]];
    try (apply count_replace_other;
         [discriminate | discriminate | vm_compute; reflexivity ..]).
  set (v := [25191; 34892; 27969; 27700; 32447]%N).
  set (p := [116; 105; 116; 108; 101; 61; 34]%N).
  assert (H : count v (replace title_open title_closed s)
              + 1 * count title_open s
              = count v s + 1 * count title_open s); [|lia].
  apply count_replace_gen; try discriminate.
  - intros r. change (title_open ++ r) with (p ++ v ++ r).
    rewrite count_skip_prefix by (vm_compute; reflexivity).
    apply count_app. discriminate.
  - intros r. change (title_closed ++ r) with (p ++ v ++ [34%N] ++ r).
    rewrite count_skip_prefix by (vm_compute; reflexivity).
    rewrite count_app by discriminate.
    now rewrite count_skip_prefix by (vm_compute; reflexivity).
  - vm_compute; reflexivity.
  - vm_compute; reflexivity.
Qed.

(** Each key turns into its value, occurrence by occurrence. *)
Lemma final_value_count (k v : str) :
  In (k, v) fixes ->
  forall x, count v (fst (transform x)) = count v x + count k x.
Proof.
  intros Hin x.
  assert (E : count v (fst (table_loop x)) = count v x + count k x).
  { rewrite final_table_fst.
    apply (table_counts_sound fixes []); [vm_compute; reflexivity | exact Hin]. }
  unfold transform, patch_quote. rewrite quote_patch_fst.
  destruct (contains title_open (fst (table_loop x))
            && negb (contains title_closed (fst (table_loop x))));
    [|exact E].
  rewrite final_quote_count; [exact E|].
  apply (in_map snd) in Hin. exact Hin.
Qed.

End FinalFixFacts.

Module FixFinalEncodingFacts.
Import PyStrFacts StepFacts FixFinalEncoding.

Lemma encoding_transform_fst (x : str) :
  fst (transform x) = replace_all fixes x.
Proof.
  unfold transform, table_loop. now rewrite fold_fix_entry_counted_fst.
Qed.

Lemma encoding_keys_absent (x : str) (k : str) :
  In k (broken_keys fixes) -> contains k (fst (transform x)) = false.
Proof.
  intros Hk. rewrite encoding_transform_fst.
  apply table_safe_sound with (absent := []).
  - vm_compute; reflexivity.
  - intros a [].
  - now rewrite app_nil_r.
Qed.

Lemma encoding_idempotent (x : str) :
  fst (transform (fst (transform x))) = fst (transform x).
Proof.
  rewrite (encoding_transform_fst (fst (transform x))).
  apply replace_all_absent_keys. intros k. apply encoding_keys_absent.
Qed.

(** Each key turns into its value, occurrence by occurrence. *)
Lemma encoding_value_count (k v : str) :
  In (k, v) fixes ->
  forall x, count v (fst (transform x)) = count v x + count k x.
Proof.
  intros Hin x. rewrite encoding_transform_fst.
  apply (table_counts_sound fixes []); [vm_compute; reflexivity | exact Hin].
Qed.

(** The count this script reports is the number of occurrences of the
    four keys in the input. *)
Lemma encoding_total (x : str) :
  snd (transform x) = list_sum (map (fun e => count (fst e) x) fixes).
Proof.
  unfold transform, table_loop.
  rewrite (fold_counted_snd fixes [] x (x, 0));
    [reflexivity | vm_compute; reflexivity | reflexivity].
Qed.

End FixFinalEncodingFacts.

Module FixEncodingCompleteFacts.
Import PyStrFacts StepFacts FixEncodingComplete.

Lemma complete_table_fst (x : str) :
  fst (table_loop x) = replace_all replacements x.
Proof. unfold table_loop. now rewrite fold_fix_entry_fst. Qed.

Lemma complete_transform_fst (x : str) :
  fst (transform x)
  = replace old_template new_template
      (fst (patch_191 (patch_181 (table_loop x)))).
Proof. unfold transform, patch_template. apply block_patch_fst. Qed.

Lemma complete_keys_absent_table (x : str) (k : str) :
  In k (broken_keys replacements) ->
  contains k (fst (table_loop x)) = false.
Proof.
  intros Hk. rewrite complete_table_fst.
  apply table_safe_sound with (absent := []).
  - vm_compute; reflexivity.
  - intros a [].
  - now rewrite app_nil_r.
Qed.

Lemma complete_keys_absent_191 (x : str) (k : str) :
  In k (broken_keys replacements) ->
  contains k (fst (patch_191 (patch_181 (table_loop x)))) = false.
Proof.
  unfold patch_191, patch_181.
  apply quote_patch_keeps_absent; [vm_compute; reflexivity|].
  apply quote_patch_keeps_absent; [vm_compute; reflexivity|].
  apply complete_keys_absent_table.
Qed.

Lemma complete_keys_absent (x : str) (k : str) :
  In k (broken_keys replacements) -> contains k (fst (transform x)) = false.
Proof.
  intros Hk. rewrite complete_transform_fst.
  apply step_safe_sound with (absent := broken_keys replacements).
  - intros a. apply complete_keys_absent_191.
  - revert k Hk. apply forallb_forall. vm_compute; reflexivity.
  - left. now apply complete_keys_absent_191.
Qed.

Lemma complete_settled_181 (x : str) :
  settled old_181 (old_181 ++ [34%N]) (fst (transform x)).
Proof.
  rewrite complete_transform_fst.
  apply replace_keeps_settled; [vm_compute; reflexivity ..|].
  unfold patch_191.
  apply quote_patch_keeps_settled; [vm_compute; reflexivity ..|].
  unfold patch_181.
  apply quote_patch_settles; [discriminate | vm_compute; reflexivity].
Qed.

Lemma complete_settled_191 (x : str) :
  settled old_191 (old_191 ++ [34%N]) (fst (transform x)).
Proof.
  rewrite complete_transform_fst.
  apply replace_keeps_settled; [vm_compute; reflexivity ..|].
  unfold patch_191.
  apply quote_patch_settles; [discriminate | vm_compute; reflexivity].
Qed.

Lemma complete_template_absent (x : str) :
  contains old_template (fst (transform x)) = false.
Proof.
  rewrite complete_transform_fst.
  apply step_safe_sound with (absent := []).
  - intros a [].
  - vm_compute; reflexivity.
  - now right.
Qed.

(** A text with no broken key, both guards settled and no malformed
    block is left as it is. *)
Lemma complete_fixed_point (y : str) :
  (forall k, In k (broken_keys replacements) -> contains k y = false) ->
  settled old_181 (old_181 ++ [34%N]) y ->
  settled old_191 (old_191 ++ [34%N]) y ->
  contains old_template y = false ->
  fst (transform y) = y.
Proof.
  intros Hk H181 H191 Ht.
  assert (E1 : fst (table_loop y) = y).
  { rewrite complete_table_fst. now apply replace_all_absent_keys. }
  assert (E2 : fst (patch_181 (table_loop y)) = y).
  { unfold patch_181.
    rewrite quote_patch_settled_id; [exact E1 | now rewrite E1]. }
  assert (E3 : fst (patch_191 (patch_181 (table_loop y))) = y).
  { unfold patch_191.
    rewrite quote_patch_settled_id; [exact E2 | now rewrite E2]. }
  rewrite complete_transform_fst, E3.
  now apply replace_absent.
Qed.

Lemma complete_idempotent (x : str) :
  fst (transform (fst (transform x))) = fst (transform x).
Proof.
  apply complete_fixed_point.
  - intros k. apply complete_keys_absent.
  - apply complete_settled_181.
  - apply complete_settled_191.
  - apply complete_template_absent.
Qed.

(** The malformed block reaches the block patch exactly when the input
    holds it: neither the table nor the quote patches touch it or can
    assemble it. *)
Lemma complete_template_reaches_patch (x : str) :
  contains old_template (fst (patch_191 (patch_181 (table_loop x))))
  = contains old_template x.
Proof.
  destruct (contains old_template x) eqn:E.
  - unfold patch_191, patch_181.
    apply quote_patch_keeps_present;
      [discriminate | vm_compute; reflexivity |].
    apply quote_patch_keeps_present;
      [discriminate | vm_compute; reflexivity |].
    rewrite complete_table_fst.
    apply replace_all_keeps_present; [vm_compute; reflexivity | exact E].
  - unfold patch_191, patch_181.
    apply quote_patch_keeps_one_absent; [vm_compute; reflexivity |].
    apply quote_patch_keeps_one_absent; [vm_compute; reflexivity |].
    rewrite complete_table_fst.
    apply replace_all_keeps_absent; [vm_compute; reflexivity | exact E].
Qed.

(** Once line 181 has its closing quote, the later patches keep it. *)
Lemma complete_closed_181_kept (x : str) :
  contains new_181 (fst (patch_181 (table_loop x))) = true ->
  contains new_181 (fst (transform x)) = true.
Proof.
  intros H. rewrite complete_transform_fst.
  apply replace_keeps; [discriminate | vm_compute; reflexivity |].
  unfold patch_191.
  apply quote_patch_keeps_present;
    [discriminate | vm_compute; reflexivity | exact H].
Qed.

End FixEncodingCompleteFacts.

(* ================================================================= *)
(** * The file-system boundary *)

Module FileIOFacts.
Import PyStrFacts FileIO.

Lemma read_text_snd (fs : filesystem) : snd (read_text fs) = fs.
Proof.
  unfold read_text. destruct (fs file_path) as [f|]; [|reflexivity].
  destruct (readable f); [|reflexivity].
  now destruct (utf8_decode (data f)).
Qed.

(** What a successful load says about the file. *)
Lemma read_text_ok (fs : filesystem) (c : str) :
  fst (read_text fs) = inr c ->
  exists f, fs file_path = Some f /\ readable f = true
            /\ utf8_decode (data f) = Some c.
Proof.
  unfold read_text. destruct (fs file_path) as [f|]; [|discriminate].
  destruct (readable f) eqn:R; [|discriminate].
  destruct (utf8_decode (data f)) as [s|] eqn:D; [|discriminate].
  cbn [fst]. intros E. injection E as <-. exists f. auto.
Qed.

(** The three ways a load fails. *)
Lemma read_text_error (fs : filesystem) (e : error) :
  (fs file_path = None /\ e = FileNotFoundError)
  \/ (exists f, fs file_path = Some f /\ readable f = false
                /\ e = PermissionError)
  \/ (exists f, fs file_path = Some f /\ readable f = true
                /\ utf8_decode (data f) = None /\ e = UnicodeDecodeError) ->
  read_text fs = (inl e, fs).
Proof.
  unfold read_text.
  intros [[H ->] | [(f & H & R & ->) | (f & H & R & D & ->)]];
    rewrite H; [reflexivity | now rewrite R | now rewrite R, D].
Qed.

(** A script whose load fails ends there, with the file system as it
    found it. *)
Lemma run_read_error (t : str -> state) (fs : filesystem) (e : error) :
  read_text fs = (inl e, fs) -> run t fs = (inl e, fs).
Proof. intros H. unfold run, bind. now rewrite H. Qed.

Lemma update_file_path (fs : filesystem) (f : file) :
  update fs f file_path = Some f.
Proof.
  unfold update. now rewrite (proj2 (str_eqb_eq file_path file_path) eq_refl).
Qed.

(** What a script does once its load has succeeded. *)
Lemma run_read_ok (t : str -> state) (fs : filesystem) (c : str) (f : file) :
  fs file_path = Some f -> readable f = true ->
  utf8_decode (data f) = Some c ->
  run t fs
  = if writable f
    then match utf8_encode (fst (t c)) with
         | Some bs => (inr (snd (t c)), update fs (mkFile bs true true))
         | None => (inl UnicodeEncodeError, update fs (mkFile [] true true))
         end
    else (inl PermissionError, fs).
Proof.
  intros H R D. unfold run, bind, read_text. rewrite H, R, D.
  destruct (t c) as [c' n]. cbn [fst snd]. unfold write_text.
  rewrite H, R. destruct (writable f); [|reflexivity].
  now destruct (utf8_encode c').
Qed.

(** Two file systems whose target file decodes to the same text, with
    the same write permission, get the same result and end with the same
    text in the file. *)
Lemma run_deterministic (t : str -> state) (fs1 fs2 : filesystem) (c : str) :
  fst (read_text fs1) = inr c -> fst (read_text fs2) = inr c ->
  option_map writable (fs1 file_path) = option_map writable (fs2 file_path) ->
  fst (run t fs1) = fst (run t fs2)
  /\ contents (snd (run t fs1)) = contents (snd (run t fs2)).
Proof.
  intros H1 H2 W.
  apply read_text_ok in H1 as (f1 & E1 & R1 & D1).
  apply read_text_ok in H2 as (f2 & E2 & R2 & D2).
  rewrite (run_read_ok t fs1 c f1 E1 R1 D1).
  rewrite (run_read_ok t fs2 c f2 E2 R2 D2).
  rewrite E1, E2 in W. cbn [option_map] in W. injection W as W. rewrite W.
  unfold contents. destruct (writable f2).
  - destruct (utf8_encode (fst (t c))); cbn [fst snd];
      now rewrite !update_file_path.
  - cbn [fst snd]. rewrite E1, E2. split; congruence.
Qed.

End FileIOFacts.

(* ================================================================= *)
(** * The claims *)

Section Claims.
Import PyStrFacts StepFacts FileIO.

(** C1.  Idempotence of the remediation pass on content: for every
    input text, running a script's pass (its whole table, then its
    patches) on the content the same pass produced gives that content
    again.  This holds for each of the three scripts. *)
Theorem C1_pass_idempotent (x : str) :
  fst (FinalFix.transform (fst (FinalFix.transform x)))
  = fst (FinalFix.transform x)
  /\ fst (FixEncodingComplete.transform
            (fst (FixEncodingComplete.transform x)))
     = fst (FixEncodingComplete.transform x)
  /\ fst (FixFinalEncoding.transform (fst (FixFinalEncoding.transform x)))
     = fst (FixFinalEncoding.transform x).
Proof.
  split; [apply FinalFixFacts.final_idempotent|].
  split; [apply FixEncodingCompleteFacts.complete_idempotent|].
  apply FixFinalEncodingFacts.encoding_idempotent.
Qed.

(** C2 (the count the scripts report).  On the input '杩愯涓?杩愯涓?',
    where the second key of every table occurs twice and both
    occurrences are replaced, [final-fix.py] and
    [fix-encoding-complete.py] report 1 fix; [fix-final-encoding.py],
    which adds [content.count(old)], reports 2. *)
Theorem C2_key_occurring_twice_counts_once :
  let x := [26473; 24879; 28051; 63; 26473; 24879; 28051; 63]%N in
  let y := [36816; 34892; 20013; 36816; 34892; 20013]%N in
  count [26473; 24879; 28051; 63]%N x = 2
  /\ FinalFix.transform x = (y, 1)
  /\ FixEncodingComplete.transform x = (y, 1)
  /\ FixFinalEncoding.transform x = (y, 2).
Proof. vm_compute. repeat split. Qed.

(** [fix-final-encoding.py] does report what C2 describes: the sum,
    over the entries of its table, of the number of occurrences of each
    key in the input. *)
Lemma fix_final_encoding_count_accurate (x : str) :
  snd (FixFinalEncoding.transform x)
  = list_sum (map (fun e => count (fst e) x) FixFinalEncoding.fixes).
Proof. apply FixFinalEncodingFacts.encoding_total. Qed.

(** Whatever the input, [final-fix.py] reports at most 5 fixes (4
    entries and a patch) and [fix-encoding-complete.py] at most 35 (29
    entries, two patches and the block's 4), while the number of
    occurrences replaced has no bound. *)
Lemma per_entry_counts_bounded (x : str) :
  snd (FinalFix.transform x) <= 5
  /\ snd (FixEncodingComplete.transform x) <= 35.
Proof.
  split.
  - unfold FinalFix.transform, FinalFix.patch_quote, FinalFix.table_loop.
    pose proof (fold_fix_entry_snd_le FinalFix.fixes (x, 0)) as H1.
    pose proof (quote_patch_snd_le FinalFix.title_open FinalFix.title_closed
                  FinalFix.title_closed
                  (fold_left fix_entry FinalFix.fixes (x, 0))) as H2.
    change (length FinalFix.fixes) with 4 in H1. cbn [snd] in H1. lia.
  - unfold FixEncodingComplete.transform, FixEncodingComplete.patch_template,
      FixEncodingComplete.patch_191, FixEncodingComplete.patch_181,
      FixEncodingComplete.table_loop.
    set (st0 := fold_left fix_entry FixEncodingComplete.replacements (x, 0)).
    pose proof (fold_fix_entry_snd_le FixEncodingComplete.replacements (x, 0))
      as H1.
    fold st0 in H1.
    change (length FixEncodingComplete.replacements) with 29 in H1.
    cbn [snd] in H1.
    set (st1 := quote_patch FixEncodingComplete.old_181
                  (FixEncodingComplete.old_181 ++ [34%N])
                  FixEncodingComplete.new_181 st0).
    pose proof (quote_patch_snd_le FixEncodingComplete.old_181
                  (FixEncodingComplete.old_181 ++ [34%N])
                  FixEncodingComplete.new_181 st0) as H2.
    fold st1 in H2.
    set (st2 := quote_patch FixEncodingComplete.old_191
                  (FixEncodingComplete.old_191 ++ [34%N])
                  FixEncodingComplete.new_191 st1).
    pose proof (quote_patch_snd_le FixEncodingComplete.old_191
                  (FixEncodingComplete.old_191 ++ [34%N])
                  FixEncodingComplete.new_191 st1) as H3.
    fold st2 in H3.
    pose proof (block_patch_snd_le FixEncodingComplete.old_template
                  FixEncodingComplete.new_template 4 st2) as H4.
    lia.
Qed.




(** C4 as stated fails on [fix-encoding-complete.py]: its 24th key, the
    long sentence, contains the 14th and the 23rd.  In table order these
    shorter keys are replaced first and the long entry never matches;
    with the table reversed the long entry matches first.  The input is
    the long key alone. *)
Lemma C4_counterexample :
  ~ (forall (table : list (str * str)) (x : str),
       Permutation FixEncodingComplete.replacements table ->
       fst (fold_left fix_entry table (x, 0))
       = fst (FixEncodingComplete.table_loop x)).
Proof.
  intros H.
  specialize (H (rev FixEncodingComplete.replacements)
                (fst (nth 23 FixEncodingComplete.replacements ([], [])))
                (Permutation_rev _)).
  vm_compute in H. discriminate.
Qed.

(** C4, amended.  In [final-fix.py] and [fix-final-encoding.py] no key
    or value of one entry can overlap the key of another, and the
    entries of the table can be applied in any order: for every
    permutation of the table and every input, the table loop, and with
    it the pass, ends with the same content. *)
Theorem C4_order_independent_tables (table : list (str * str)) (x : str) :
  (Permutation FinalFix.fixes table ->
   fst (fold_left fix_entry table (x, 0)) = fst (FinalFix.table_loop x)
   /\ fst (FinalFix.patch_quote (fold_left fix_entry table (x, 0)))
      = fst (FinalFix.transform x))
  /\ (Permutation FixFinalEncoding.fixes table ->
      fst (fold_left fix_entry_counted table (x, 0))
      = fst (FixFinalEncoding.transform x)).
Proof.
  split.
  - intros Hp.
    assert (E : fst (fold_left fix_entry table (x, 0))
                = fst (FinalFix.table_loop x)).
    { unfold FinalFix.table_loop. rewrite !fold_fix_entry_fst. symmetry.
      apply replace_all_permutation; [exact Hp|].
      apply pairwise_independent_comm. vm_compute; reflexivity. }
    split; [exact E|].
    unfold FinalFix.transform, FinalFix.patch_quote.
    rewrite !quote_patch_fst. now rewrite E.
  - intros Hp. unfold FixFinalEncoding.transform, FixFinalEncoding.table_loop.
    rewrite !fold_fix_entry_counted_fst. symmetry.
    apply replace_all_permutation; [exact Hp|].
    apply pairwise_independent_comm. vm_compute; reflexivity.
Qed.

(** C4 amended, on the reversed tables and an input holding the second
    and the fourth key. *)
Lemma C4_witness :
  let x := [28051; 25442; 37716; 63; 47; 115; 112; 97; 110; 62;
            26473; 24879; 28051; 63]%N in
  fst (FinalFix.patch_quote
         (fold_left fix_entry (rev FinalFix.fixes) (x, 0)))
  = fst (FinalFix.transform x)
  /\ fst (fold_left fix_entry_counted (rev FixFinalEncoding.fixes) (x, 0))
     = fst (FixFinalEncoding.transform x).
Proof.
  intros x. split.
  - destruct (C4_order_independent_tables (rev FinalFix.fixes) x)
      as [H _].
    destruct (H (Permutation_rev _)) as [_ E]. exact E.
  - destruct (C4_order_independent_tables (rev FixFinalEncoding.fixes) x)
      as [_ H].
    exact (H (Permutation_rev _)).
Defined.



(** C6.  Dangling-quote repair.  Take the content and counter the table
    loop leaves, which are what line 25 of [final-fix.py] and line 68 of
    [fix-encoding-complete.py] test.  If that content holds the opening
    form of the attribute and not the closed form, the patch replaces
    the opening form by the closed one and adds exactly 1 to the
    counter, and the output of the pass holds the closed form.  If the
    closed form is already there, the patch changes nothing. *)
Theorem C6_dangling_quote_repair (x : str) :
  (let st := FinalFix.table_loop x in
   (contains FinalFix.title_open (fst st) = true ->
    contains FinalFix.title_closed (fst st) = false ->
    FinalFix.transform x
    = (replace FinalFix.title_open FinalFix.title_closed (fst st),
       snd st + 1)
    /\ contains FinalFix.title_closed (fst (FinalFix.transform x)) = true)
   /\ (contains FinalFix.title_closed (fst st) = true ->
       FinalFix.transform x = st))
  /\ (let st := FixEncodingComplete.table_loop x in
      (contains FixEncodingComplete.old_181 (fst st) = true ->
       contains FixEncodingComplete.new_181 (fst st) = false ->
       FixEncodingComplete.patch_181 st
       = (replace FixEncodingComplete.old_181 FixEncodingComplete.new_181
            (fst st),
          snd st + 1)
       /\ contains FixEncodingComplete.new_181
            (fst (FixEncodingComplete.transform x)) = true)
      /\ (contains FixEncodingComplete.new_181 (fst st) = true ->
          FixEncodingComplete.patch_181 st = st)).
Proof.
  split; cbv zeta.
  - split.
    + intros H1 H2. unfold FinalFix.transform, FinalFix.patch_quote.
      rewrite quote_patch_applied by assumption. split; [reflexivity|].
      cbn [fst]. apply replace_puts_new; [discriminate | exact H1].
    + intros H. unfold FinalFix.transform, FinalFix.patch_quote.
      apply quote_patch_settled_id. now right.
  - split.
    + intros H1 H2.
      assert (E : FixEncodingComplete.patch_181
                    (FixEncodingComplete.table_loop x)
                  = (replace FixEncodingComplete.old_181
                       FixEncodingComplete.new_181
                       (fst (FixEncodingComplete.table_loop x)),
                     snd (FixEncodingComplete.table_loop x) + 1)).
      { unfold FixEncodingComplete.patch_181.
        apply quote_patch_applied; [exact H1 | exact H2]. }
      split; [exact E|].
      apply FixEncodingCompleteFacts.complete_closed_181_kept.
      rewrite E. cbn [fst].
      apply replace_puts_new; [discriminate | exact H1].
    + intros H. unfold FixEncodingComplete.patch_181.
      apply quote_patch_settled_id. now right.
Qed.

(** C6 on the input [title=], a double quote and '执行娴佹按绾?': the
    third table entry restores the label, the patch closes the quote,
    and both scripts count 2 fixes. *)
Lemma C6_witness :
  let x := [116; 105; 116; 108; 101; 61; 34;
            25191; 34892; 23092; 20345; 25353; 32510; 63]%N in
  FinalFix.transform x = (FinalFix.title_closed, 2)
  /\ FixEncodingComplete.transform x = (FixEncodingComplete.new_181, 2).
Proof.
  intros x. destruct (C6_dangling_quote_repair x) as [[H1 _] [H2 _]].
  split.
  - destruct H1 as [E _]; [vm_compute; reflexivity ..|].
    rewrite E. vm_compute. reflexivity.
  - destruct H2 as [_ E]; [vm_compute; reflexivity ..|].
    vm_compute. reflexivity.
Defined.



(** C8.  Block replacement.  Take the content and counter that reach
    line 92 of [fix-encoding-complete.py].  If that content holds the
    malformed four-line block, the pass ends with every copy of the
    block replaced by the corrected block (the malformed block is gone,
    the corrected one is there) and with 4 added to the counter;
    otherwise the step changes neither.  The block is in that content
    exactly when it is in the input. *)
Theorem C8_block_replacement (x : str) :
  let st := FixEncodingComplete.patch_191
              (FixEncodingComplete.patch_181
                 (FixEncodingComplete.table_loop x)) in
  (contains FixEncodingComplete.old_template (fst st) = true ->
   FixEncodingComplete.transform x
   = (replace FixEncodingComplete.old_template
        FixEncodingComplete.new_template (fst st),
      snd st + 4)
   /\ contains FixEncodingComplete.old_template
        (fst (FixEncodingComplete.transform x)) = false
   /\ contains FixEncodingComplete.new_template
        (fst (FixEncodingComplete.transform x)) = true)
  /\ (contains FixEncodingComplete.old_template (fst st) = false ->
      FixEncodingComplete.transform x = st)
  /\ contains FixEncodingComplete.old_template (fst st)
     = contains FixEncodingComplete.old_template x.
Proof.
  cbv zeta. split; [|split].
  - intros H. split; [|split].
    + unfold FixEncodingComplete.transform,
        FixEncodingComplete.patch_template, block_patch.
      destruct (FixEncodingComplete.patch_191 _) as [c n].
      cbn [fst snd] in H |- *. now rewrite H.
    + apply FixEncodingCompleteFacts.complete_template_absent.
    + rewrite FixEncodingCompleteFacts.complete_transform_fst.
      apply replace_puts_new; [discriminate | exact H].
  - intros H.
    unfold FixEncodingComplete.transform,
      FixEncodingComplete.patch_template, block_patch.
    destruct (FixEncodingComplete.patch_191 _) as [c n].
    cbn [fst] in H. now rewrite H.
  - apply FixEncodingCompleteFacts.complete_template_reaches_patch.
Qed.

(** C8 on the malformed block itself: the output is the corrected block
    and the count is 4. *)
Lemma C8_witness :
  FixEncodingComplete.transform FixEncodingComplete.old_template
  = (FixEncodingComplete.new_template, 4).
Proof.
  destruct (C8_block_replacement FixEncodingComplete.old_template)
    as [H _].
  destruct H as [E _]; [vm_compute; reflexivity|].
  rewrite E. vm_compute. reflexivity.
Defined.



(** The run of C9's witness, spelled out for [final-fix.py]. *)
Example final_fix_run :
  let bytes := [230; 157; 169; 230; 132; 175; 230; 182; 147; 63]%N in
  let fs := only_target (mkFile bytes true true) in
  fst (final_fix fs) = inr 1
  /\ contents (snd (final_fix fs)) = Some [36816; 34892; 20013]%N
  /\ option_map data (snd (final_fix fs) file_path)
     = Some [232; 191; 144; 232; 161; 140; 228; 184; 173]%N.
Proof. vm_compute. repeat split. Qed.

(** C10.  Guard shadowing.  If the content the table loop leaves holds
    an occurrence of the opening form not followed by a double quote
    and, somewhere, the closed form, the quote patch is skipped: in
    [final-fix.py] the pass outputs that content, with the unclosed
    occurrence where it was, and the counter of the table loop; in
    [fix-encoding-complete.py] the patch of line 181 returns its state
    unchanged. *)
Theorem C10_guard_shadowing (x a b : str) :
  (fst (FinalFix.table_loop x) = a ++ FinalFix.title_open ++ b ->
   starts [34%N] b = false ->
   contains FinalFix.title_closed (fst (FinalFix.table_loop x)) = true ->
   fst (FinalFix.transform x) = a ++ FinalFix.title_open ++ b
   /\ snd (FinalFix.transform x) = snd (FinalFix.table_loop x))
  /\ (fst (FixEncodingComplete.table_loop x)
      = a ++ FixEncodingComplete.old_181 ++ b ->
      starts [34%N] b = false ->
      contains (FixEncodingComplete.old_181 ++ [34%N])
        (fst (FixEncodingComplete.table_loop x)) = true ->
      FixEncodingComplete.patch_181 (FixEncodingComplete.table_loop x)
      = FixEncodingComplete.table_loop x).
Proof.
  split.
  - intros E _ H. unfold FinalFix.transform, FinalFix.patch_quote.
    rewrite quote_patch_settled_id by now right. now split.
  - intros _ _ H. unfold FixEncodingComplete.patch_181.
    apply quote_patch_settled_id. now right.
Qed.

(** C10 on an input with the attribute once unclosed and once closed,
    a space between them: both scripts leave the first one unclosed,
    and [final-fix.py] reports no fix. *)
Lemma C10_witness :
  let x := FinalFix.title_open ++ [32%N] ++ FinalFix.title_closed in
  FinalFix.transform x = (x, 0)
  /\ FixEncodingComplete.patch_181 (FixEncodingComplete.table_loop x)
     = FixEncodingComplete.table_loop x.
Proof.
  intros x.
  destruct (C10_guard_shadowing x [] ([32%N] ++ FinalFix.title_closed))
    as [H1 H2].
  split.
  - destruct H1 as [E1 E2]; [vm_compute; reflexivity ..|].
    rewrite (surjective_pairing (FinalFix.transform x)), E1, E2.
    vm_compute. reflexivity.
  - apply H2; vm_compute; reflexivity.
Defined.

End Claims.

(* ================================================================= *)
(** * Further properties of the loops *)

Module LoopFacts.
Import PyStrFacts StepFacts.

(** [old in s] and [s.count(old)] agree on whether [old] occurs. *)
Lemma contains_count (w s : str) :
  w <> [] -> contains w s = negb (Nat.eqb (count w s) 0).
Proof.
  intros Hw. revert s. refine (@replace_ind w _ Hw _ _ _); cbv beta.
  - rewrite count_nil by assumption. destruct w; [congruence | reflexivity].
  - intros t _. rewrite count_app by assumption.
    now rewrite (contains_starts _ _ (starts_app w t)).
  - intros c t H IH. rewrite count_cons by assumption.
    simpl. now rewrite H.
Qed.

Lemma contains_count_pos (w s : str) :
  contains w s = true -> 1 <= count w s.
Proof.
  destruct w as [|x w]; [intros _; simpl; lia|].
  rewrite contains_count by discriminate.
  destruct (count (x :: w) s); [discriminate | lia].
Qed.

(** An entry nothing before it touches is found by the loop exactly
    when it is in the input. *)
Lemma contains_replace_all_untouched (w : str) (table : list (str * str)) :
  w <> [] -> forallb (untouched w) table = true ->
  forall s, contains w (replace_all table s) = contains w s.
Proof.
  intros Hw H s. rewrite !contains_count by assumption.
  now rewrite count_replace_all_untouched.
Qed.

Lemma fix_entry_snd (st : state) (e : str * str) :
  snd (fix_entry st e)
  = snd st + (if contains (fst e) (fst st) then 1 else 0).
Proof.
  destruct st as [c m], e as [old new]; simpl.
  destruct (contains old c); simpl; lia.
Qed.

Lemma fold_fix_entry_snd_found (after : list (str * str)) :
  forall before x st,
    keys_untouched before after = true ->
    fst st = replace_all before x ->
    snd (fold_left fix_entry after st) = snd st + keys_found after x.
Proof.
  induction after as [|[k v] rest IH]; intros before x st H Hst.
  - unfold keys_found. simpl. lia.
  - simpl in H. apply andb_true_iff in H as [H H2].
    apply andb_true_iff in H as [H0 H1]. apply nonempty_true in H0.
    simpl fold_left.
    rewrite (IH (before ++ [(k, v)]) x).
    + rewrite fix_entry_snd. cbn [fst].
      rewrite Hst, contains_replace_all_untouched by assumption.
      unfold keys_found. cbn [filter fst].
      destruct (contains k x); simpl; lia.
    + exact H2.
    + rewrite fix_entry_fst, replace_all_app, Hst. reflexivity.
Qed.

(** *** Counters only grow, and stand still only when nothing is done *)

Lemma fix_entry_same_snd (st : state) (e : str * str) :
  snd (fix_entry st e) = snd st -> fix_entry st e = st.
Proof.
  destruct st as [c m], e as [old new]; simpl.
  destruct (contains old c); simpl; [lia | reflexivity].
Qed.

Lemma fix_entry_snd_ge (st : state) (e : str * str) :
  snd st <= snd (fix_entry st e).
Proof. rewrite fix_entry_snd. lia. Qed.

Lemma fold_fix_entry_snd_ge (table : list (str * str)) (st : state) :
  snd st <= snd (fold_left fix_entry table st).
Proof.
  revert st; induction table as [|e table IH]; intros st; simpl; [lia|].
  specialize (IH (fix_entry st e)). pose proof (fix_entry_snd_ge st e). lia.
Qed.

Lemma fold_fix_entry_same_snd (table : list (str * str)) (st : state) :
  snd (fold_left fix_entry table st) = snd st ->
  fold_left fix_entry table st = st.
Proof.
  revert st; induction table as [|e table IH]; intros st H; [reflexivity|].
  simpl in H |- *.
  pose proof (fix_entry_snd_ge st e) as H1.
  pose proof (fold_fix_entry_snd_ge table (fix_entry st e)) as H2.
  assert (E : fix_entry st e = st) by (apply fix_entry_same_snd; lia).
  rewrite E in H |- *. now apply IH.
Qed.

Lemma fix_entry_counted_same_snd (st : state) (e : str * str) :
  snd (fix_entry_counted st e) = snd st -> fix_entry_counted st e = st.
Proof.
  destruct st as [c m], e as [old new]; simpl.
  destruct (contains old c) eqn:E; simpl; [|reflexivity].
  pose proof (contains_count_pos old c E). lia.
Qed.

Lemma fix_entry_counted_snd_ge (st : state) (e : str * str) :
  snd st <= snd (fix_entry_counted st e).
Proof. rewrite fix_entry_counted_snd. lia. Qed.

Lemma fold_fix_entry_counted_snd_ge (table : list (str * str)) (st : state) :
  snd st <= snd (fold_left fix_entry_counted table st).
Proof.
  revert st; induction table as [|e table IH]; intros st; simpl; [lia|].
  specialize (IH (fix_entry_counted st e)).
  pose proof (fix_entry_counted_snd_ge st e). lia.
Qed.

Lemma fold_fix_entry_counted_same_snd
      (table : list (str * str)) (st : state) :
  snd (fold_left fix_entry_counted table st) = snd st ->
  fold_left fix_entry_counted table st = st.
Proof.
  revert st; induction table as [|e table IH]; intros st H; [reflexivity|].
  simpl in H |- *.
  pose proof (fix_entry_counted_snd_ge st e) as H1.
  pose proof (fold_fix_entry_counted_snd_ge table (fix_entry_counted st e))
    as H2.
  assert (E : fix_entry_counted st e = st)
    by (apply fix_entry_counted_same_snd; lia).
  rewrite E in H |- *. now apply IH.
Qed.

Lemma quote_patch_snd_ge (old closed new : str) (st : state) :
  snd st <= snd (quote_patch old closed new st).
Proof.
  destruct st as [c m]; unfold quote_patch.
  destruct (contains old c && negb (contains closed c)); simpl; lia.
Qed.

Lemma quote_patch_same_snd (old closed new : str) (st : state) :
  snd (quote_patch old closed new st) = snd st ->
  quote_patch old closed new st = st.
Proof.
  destruct st as [c m]; unfold quote_patch.
  destruct (contains old c && negb (contains closed c)); simpl;
    [lia | reflexivity].
Qed.

Lemma block_patch_snd_ge (old new : str) (w : nat) (st : state) :
  snd st <= snd (block_patch old new w st).
Proof.
  destruct st as [c m]; unfold block_patch.
  destruct (contains old c); simpl; lia.
Qed.

Lemma block_patch_same_snd (old new : str) (w : nat) (st : state) :
  0 < w -> snd (block_patch old new w st) = snd st ->
  block_patch old new w st = st.
Proof.
  destruct st as [c m]; unfold block_patch.
  destruct (contains old c); simpl; [lia | reflexivity].
Qed.

(** A loop followed by patches reports 0 only if nothing was done. *)
Lemma loop_patch_zero
      (table : list (str * str)) (o c n : str) (x : str) :
  snd (quote_patch o c n (fold_left fix_entry table (x, 0))) = 0 ->
  quote_patch o c n (fold_left fix_entry table (x, 0)) = (x, 0).
Proof.
  intros H.
  pose proof (fold_fix_entry_snd_ge table (x, 0)) as H1.
  pose proof (quote_patch_snd_ge o c n (fold_left fix_entry table (x, 0)))
    as H2.
  cbn [snd] in H1.
  rewrite quote_patch_same_snd by lia.
  apply fold_fix_entry_same_snd. cbn [snd]. lia.
Qed.

Lemma loop_patches_zero
      (table : list (str * str)) (o1 c1 n1 o2 c2 n2 ob nb : str)
      (w : nat) (x : str) :
  0 < w ->
  snd (block_patch ob nb w
         (quote_patch o2 c2 n2
            (quote_patch o1 c1 n1 (fold_left fix_entry table (x, 0))))) = 0 ->
  block_patch ob nb w
    (quote_patch o2 c2 n2
       (quote_patch o1 c1 n1 (fold_left fix_entry table (x, 0))))
  = (x, 0).
Proof.
  intros Hw H.
  pose proof (fold_fix_entry_snd_ge table (x, 0)) as H0.
  pose proof (quote_patch_snd_ge o1 c1 n1
                (fold_left fix_entry table (x, 0))) as H1.
  pose proof (quote_patch_snd_ge o2 c2 n2
                (quote_patch o1 c1 n1 (fold_left fix_entry table (x, 0))))
    as H2.
  pose proof (block_patch_snd_ge ob nb w
                (quote_patch o2 c2 n2
                   (quote_patch o1 c1 n1
                      (fold_left fix_entry table (x, 0))))) as H3.
  cbn [snd] in H0.
  rewrite block_patch_same_snd by lia.
  rewrite (quote_patch_same_snd o2 c2 n2) by lia.
  rewrite (quote_patch_same_snd o1 c1 n1) by lia.
  apply fold_fix_entry_same_snd. cbn [snd]. lia.
Qed.

(** *** A table run on a text without its broken keys *)

Lemma fold_fix_entry_settled (table : list (str * str)) (y : str) :
  (forall k, In k (broken_keys table) -> contains k y = false) ->
  forall n, fold_left fix_entry table (y, n) = (y, n + same_found table y).
Proof.
  unfold same_found.
  induction table as [|[k v] table IH]; intros H n.
  - simpl. f_equal. lia.
  - unfold broken_keys in H. simpl in H. fold (broken_keys table) in H.
    cbn [filter fst snd]. simpl fold_left.
    destruct (str_eqb k v) eqn:E.
    + apply str_eqb_eq in E. subst v. simpl andb.
      destruct (contains k y) eqn:C.
      * rewrite replace_same, IH by exact H. f_equal. simpl length. lia.
      * now rewrite IH by exact H.
    + simpl in H. rewrite (H k (or_introl eq_refl)).
      simpl andb. apply IH. intros k' Hk'. apply H. now right.
Qed.

Lemma keys_among_broken_sound (sub table : list (str * str)) :
  keys_among_broken sub table = true ->
  forall y, (forall k, In k (broken_keys table) -> contains k y = false) ->
  forall k v, In (k, v) sub -> contains k y = false.
Proof.
  intros H y Hy k v Hin. unfold keys_among_broken in H.
  rewrite forallb_forall in H. specialize (H _ Hin).
  apply existsb_exists in H as (k' & Hk' & E).
  apply str_eqb_eq in E. cbn [fst] in E. subst k'. auto.
Qed.

(** An entry whose key holds a key already replaced never matches. *)
Lemma dead_entry (before : list (str * str)) (k v : str) (x : str) (n : nat) :
  table_safe [] before = true ->
  excluded (broken_keys before) k = true ->
  fix_entry (fold_left fix_entry before (x, n)) (k, v)
  = fold_left fix_entry before (x, n).
Proof.
  intros Hsafe Hex.
  destruct (fold_left fix_entry before (x, n)) as [c m] eqn:E.
  apply (f_equal fst) in E. rewrite fold_fix_entry_fst in E. cbn [fst] in E.
  assert (H : contains k c = false).
  { apply (excluded_sound (broken_keys before)); [|exact Hex].
    intros a Ha. rewrite <- E.
    apply (table_safe_sound before [] x Hsafe); [intros ? [] |].
    now rewrite app_nil_r. }
  simpl. now rewrite H.
Qed.

Lemma skipn_nth_cons {A : Type} (d : A) (l : list A) :
  forall i, i < length l -> skipn i l = nth i l d :: skipn (S i) l.
Proof.
  induction l as [|a l IH]; intros i H; simpl in H; [lia|].
  destruct i as [|i]; [reflexivity|].
  simpl. apply IH. lia.
Qed.

(** Taking a dead entry out of a table changes nothing. *)
Lemma fold_drop_dead (table : list (str * str)) (i : nat) (x : str) (n : nat) :
  i < length table ->
  table_safe [] (firstn i table) = true ->
  excluded (broken_keys (firstn i table)) (fst (nth i table ([], [])))
  = true ->
  fold_left fix_entry table (x, n)
  = fold_left fix_entry (drop_at i table) (x, n).
Proof.
  intros Hi Hsafe Hex. unfold drop_at.
  assert (E : table = firstn i table
                      ++ nth i table ([], []) :: skipn (S i) table).
  { etransitivity; [symmetry; apply (firstn_skipn i)|].
    f_equal. apply skipn_nth_cons. exact Hi. }
  set (a := firstn i table) in *. set (c := skipn (S i) table) in *.
  set (e := nth i table ([], [])) in *.
  rewrite E. rewrite !fold_left_app. cbn [fold_left].
  rewrite (surjective_pairing e).
  now rewrite dead_entry.
Qed.

(** Bound on the counter of a loop followed by two quote patches and
    a block patch. *)
Lemma loop_patches_le
      (table : list (str * str)) (o1 c1 n1 o2 c2 n2 ob nb : str)
      (w : nat) (x : str) :
  snd (block_patch ob nb w
         (quote_patch o2 c2 n2
            (quote_patch o1 c1 n1 (fold_left fix_entry table (x, 0)))))
  <= length table + 2 + w.
Proof.
  pose proof (fold_fix_entry_snd_le table (x, 0)) as H0.
  pose proof (quote_patch_snd_le o1 c1 n1
                (fold_left fix_entry table (x, 0))) as H1.
  pose proof (quote_patch_snd_le o2 c2 n2
                (quote_patch o1 c1 n1 (fold_left fix_entry table (x, 0))))
    as H2.
  pose proof (block_patch_snd_le ob nb w
                (quote_patch o2 c2 n2
                   (quote_patch o1 c1 n1
                      (fold_left fix_entry table (x, 0))))) as H3.
  cbn [snd] in H0. lia.
Qed.

Lemma quote_patch_count (w o c n : str) (st : state) :
  w <> [] -> untouched w (o, n) = true ->
  count w (fst (quote_patch o c n st)) = count w (fst st).
Proof.
  intros Hw H. rewrite quote_patch_fst.
  destruct (contains o (fst st) && negb (contains c (fst st)));
    [|reflexivity].
  apply (count_replace_untouched w (o, n) (fst st) Hw H).
Qed.

Lemma block_patch_snd (old new : str) (w : nat) (st : state) :
  snd (block_patch old new w st)
  = snd st + (if contains old (fst st) then w else 0).
Proof.
  destruct st as [c m]; unfold block_patch. cbn [fst snd].
  destruct (contains old c); cbn [snd]; lia.
Qed.

End LoopFacts.

(* ================================================================= *)
(** * Further properties of the three scripts *)

Module ScriptFacts.
Import PyStrFacts StepFacts LoopFacts.

(** [final-fix.py] on a text without its keys and with its guard off. *)
Lemma final_settled_state (y : str) :
  (forall k, In k (broken_keys FinalFix.fixes) -> contains k y = false) ->
  settled FinalFix.title_open FinalFix.title_closed y ->
  FinalFix.transform y = (y, 0).
Proof.
  intros Hk Hs.
  unfold FinalFix.transform, FinalFix.table_loop, FinalFix.patch_quote.
  rewrite (fold_fix_entry_settled FinalFix.fixes y Hk 0).
  change (same_found FinalFix.fixes y) with 0.
  now apply quote_patch_settled_id.
Qed.

Lemma encoding_settled_state (y : str) :
  (forall k, In k (broken_keys FixFinalEncoding.fixes) ->
             contains k y = false) ->
  FixFinalEncoding.transform y = (y, 0).
Proof.
  intros Hk.
  unfold FixFinalEncoding.transform, FixFinalEncoding.table_loop.
  apply fold_fix_entry_counted_clean. intros k v Hin.
  apply Hk. apply (broken_key_in _ k v Hin).
  simpl in Hin.
  destruct Hin as [E | [E | [E | [E | []]]]];
    injection E as <- <-; discriminate.
Qed.

Lemma complete_same_found (y : str) :
  same_found FixEncodingComplete.replacements y
  = if contains same_key y then 1 else 0.
Proof.
  unfold same_found. cbv - [contains].
  match goal with |- context [contains ?k y] => destruct (contains k y) end;
    reflexivity.
Qed.

(** [fix-encoding-complete.py] on a text without its broken keys, with
    both guards off and without the malformed block: the only entry that
    can still match is the one that changes nothing. *)
Lemma complete_settled_state (y : str) :
  (forall k, In k (broken_keys FixEncodingComplete.replacements) ->
             contains k y = false) ->
  settled FixEncodingComplete.old_181
    (FixEncodingComplete.old_181 ++ [34%N]) y ->
  settled FixEncodingComplete.old_191
    (FixEncodingComplete.old_191 ++ [34%N]) y ->
  contains FixEncodingComplete.old_template y = false ->
  FixEncodingComplete.transform y
  = (y, if contains same_key y then 1 else 0).
Proof.
  intros Hk H181 H191 Ht.
  unfold FixEncodingComplete.transform, FixEncodingComplete.table_loop.
  rewrite (fold_fix_entry_settled FixEncodingComplete.replacements y Hk 0).
  rewrite complete_same_found. cbn [Nat.add].
  unfold FixEncodingComplete.patch_181.
  rewrite quote_patch_settled_id by exact H181.
  unfold FixEncodingComplete.patch_191.
  rewrite quote_patch_settled_id by exact H191.
  unfold FixEncodingComplete.patch_template, block_patch.
  now rewrite Ht.
Qed.

Lemma final_zero_report (x : str) :
  snd (FinalFix.transform x) = 0 -> FinalFix.transform x = (x, 0).
Proof.
  unfold FinalFix.transform, FinalFix.patch_quote, FinalFix.table_loop.
  apply (loop_patch_zero FinalFix.fixes FinalFix.title_open
           FinalFix.title_closed FinalFix.title_closed x).
Qed.

Lemma encoding_zero_report (x : str) :
  snd (FixFinalEncoding.transform x) = 0 ->
  FixFinalEncoding.transform x = (x, 0).
Proof.
  unfold FixFinalEncoding.transform, FixFinalEncoding.table_loop.
  apply (fold_fix_entry_counted_same_snd FixFinalEncoding.fixes (x, 0)).
Qed.

Lemma complete_zero_report (x : str) :
  snd (FixEncodingComplete.transform x) = 0 ->
  FixEncodingComplete.transform x = (x, 0).
Proof.
  unfold FixEncodingComplete.transform, FixEncodingComplete.patch_template,
    FixEncodingComplete.patch_191, FixEncodingComplete.patch_181,
    FixEncodingComplete.table_loop.
  apply (loop_patches_zero FixEncodingComplete.replacements
           FixEncodingComplete.old_181
           (FixEncodingComplete.old_181 ++ [34%N])
           FixEncodingComplete.new_181
           FixEncodingComplete.old_191
           (FixEncodingComplete.old_191 ++ [34%N])
           FixEncodingComplete.new_191
           FixEncodingComplete.old_template
           FixEncodingComplete.new_template 4 x).
  lia.
Qed.

Lemma final_second_pass (x : str) :
  FinalFix.transform (fst (FinalFix.transform x))
  = (fst (FinalFix.transform x), 0).
Proof.
  apply final_settled_state.
  - intros k. apply FinalFixFacts.final_keys_absent.
  - apply FinalFixFacts.final_transform_settled.
Qed.

Lemma encoding_second_pass (x : str) :
  FixFinalEncoding.transform (fst (FixFinalEncoding.transform x))
  = (fst (FixFinalEncoding.transform x), 0).
Proof.
  apply encoding_settled_state.
  intros k. apply FixFinalEncodingFacts.encoding_keys_absent.
Qed.

Lemma complete_second_pass (x : str) :
  FixEncodingComplete.transform (fst (FixEncodingComplete.transform x))
  = (fst (FixEncodingComplete.transform x),
     if contains same_key (fst (FixEncodingComplete.transform x))
     then 1 else 0).
Proof.
  apply complete_settled_state.
  - intros k. apply FixEncodingCompleteFacts.complete_keys_absent.
  - apply FixEncodingCompleteFacts.complete_settled_181.
  - apply FixEncodingCompleteFacts.complete_settled_191.
  - apply FixEncodingCompleteFacts.complete_template_absent.
Qed.

(** The loop of [fix-encoding-complete.py] with and without its two
    shadowed entries. *)
Lemma complete_table_loop_live (x : str) :
  FixEncodingComplete.table_loop x
  = fold_left fix_entry live_replacements (x, 0).
Proof.
  unfold FixEncodingComplete.table_loop, live_replacements.
  rewrite (fold_drop_dead FixEncodingComplete.replacements 23 x 0);
    [| vm_compute; lia | vm_compute; reflexivity ..].
  apply (fold_drop_dead (drop_at 23 FixEncodingComplete.replacements) 21 x 0);
    [vm_compute; lia | vm_compute; reflexivity ..].
Qed.

(** Neither the table nor the quote patches change how often one of the
    two blocks occurs. *)
Lemma complete_block_count_kept (w : str) (x : str) :
  w <> [] ->
  forallb (untouched w) FixEncodingComplete.replacements = true ->
  untouched w (FixEncodingComplete.old_181, FixEncodingComplete.new_181)
  = true ->
  untouched w (FixEncodingComplete.old_191, FixEncodingComplete.new_191)
  = true ->
  count w (fst (FixEncodingComplete.patch_191
                  (FixEncodingComplete.patch_181
                     (FixEncodingComplete.table_loop x))))
  = count w x.
Proof.
  intros Hw Ht H1 H2.
  unfold FixEncodingComplete.patch_191.
  rewrite quote_patch_count by assumption.
  unfold FixEncodingComplete.patch_181.
  rewrite quote_patch_count by assumption.
  rewrite FixEncodingCompleteFacts.complete_table_fst.
  now apply count_replace_all_untouched.
Qed.

End ScriptFacts.

(* ================================================================= *)
(** * What the scripts report, and how they compose *)

Section Reports.
Import PyStrFacts StepFacts LoopFacts ScriptFacts.

(** X1.  The count [final-fix.py] reports is the number of table
    entries whose key occurs in the input, plus 1 when the quote patch
    applies to the content the loop leaves; the number of occurrences of
    a key plays no part. *)
Theorem final_fix_count_exact (x : str) :
  snd (FinalFix.transform x)
  = keys_found FinalFix.fixes x
    + (if contains FinalFix.title_open (fst (FinalFix.table_loop x))
          && negb (contains FinalFix.title_closed
                     (fst (FinalFix.table_loop x)))
       then 1 else 0).
Proof.
  assert (E : snd (FinalFix.table_loop x) = keys_found FinalFix.fixes x).
  { unfold FinalFix.table_loop.
    apply (fold_fix_entry_snd_found FinalFix.fixes [] x (x, 0));
      [vm_compute; reflexivity | reflexivity]. }
  unfold FinalFix.transform, FinalFix.patch_quote.
  destruct (FinalFix.table_loop x) as [c m]. cbn [fst snd] in E |- *.
  unfold quote_patch.
  destruct (contains FinalFix.title_open c
            && negb (contains FinalFix.title_closed c)); cbn [snd]; lia.
Qed.

(** X2.  A second pass over a script's own output leaves it as it is
    and reports 0 fixes for [final-fix.py] and [fix-final-encoding.py].
    [fix-encoding-complete.py] reports 1 when its output holds
    '删除流水线', the key that is its own value, and 0 otherwise. *)
Theorem second_pass_report (x : str) :
  FinalFix.transform (fst (FinalFix.transform x))
  = (fst (FinalFix.transform x), 0)
  /\ FixFinalEncoding.transform (fst (FixFinalEncoding.transform x))
     = (fst (FixFinalEncoding.transform x), 0)
  /\ FixEncodingComplete.transform (fst (FixEncodingComplete.transform x))
     = (fst (FixEncodingComplete.transform x),
        if contains same_key (fst (FixEncodingComplete.transform x))
        then 1 else 0).
Proof.
  split; [apply final_second_pass|].
  split; [apply encoding_second_pass | apply complete_second_pass].
Qed.

(** X3.  [final-fix.py] and [fix-final-encoding.py] report 0 fixes
    exactly when the output content is the input.  For
    [fix-encoding-complete.py] a report of 0 means the content is
    unchanged, and an unchanged content is reported as 1 fix when it
    holds '删除流水线' and as 0 otherwise. *)
Theorem report_zero_and_unchanged (x : str) :
  (snd (FinalFix.transform x) = 0 <-> fst (FinalFix.transform x) = x)
  /\ (snd (FixFinalEncoding.transform x) = 0
      <-> fst (FixFinalEncoding.transform x) = x)
  /\ (snd (FixEncodingComplete.transform x) = 0 ->
      fst (FixEncodingComplete.transform x) = x)
  /\ (fst (FixEncodingComplete.transform x) = x ->
      snd (FixEncodingComplete.transform x)
      = if contains same_key x then 1 else 0).
Proof.
  split; [|split; [|split]].
  - split; intros H.
    + now rewrite (final_zero_report x H).
    + pose proof (final_second_pass x) as E.
      rewrite H in E. now rewrite E.
  - split; intros H.
    + now rewrite (encoding_zero_report x H).
    + pose proof (encoding_second_pass x) as E.
      rewrite H in E. now rewrite E.
  - intros H. now rewrite (complete_zero_report x H).
  - intros H.
    pose proof (complete_second_pass x) as E.
    rewrite H in E. now rewrite E.
Qed.

(** X3 on the clean text 'ok' and on the text '删除流水线': the first is
    reported as 0 fixes by every script, the second as 1 fix by
    [fix-encoding-complete.py] although it is not changed. *)
Lemma report_zero_and_unchanged_witness :
  (fst (FinalFix.transform [111; 107]%N) = [111; 107]%N
   /\ fst (FixFinalEncoding.transform [111; 107]%N) = [111; 107]%N
   /\ fst (FixEncodingComplete.transform [111; 107]%N) = [111; 107]%N)
  /\ snd (FinalFix.transform [111; 107]%N) = 0
  /\ snd (FixEncodingComplete.transform same_key) = 1.
Proof.
  destruct (report_zero_and_unchanged [111; 107]%N) as (H1 & H2 & H3 & _).
  destruct (report_zero_and_unchanged same_key) as (_ & _ & _ & H4).
  split; [split; [|split]|split].
  - apply H1. vm_compute. reflexivity.
  - apply H2. vm_compute. reflexivity.
  - apply H3. vm_compute. reflexivity.
  - apply H1. vm_compute. reflexivity.
  - rewrite H4; vm_compute; reflexivity.
Defined.

(** X4.  Running [final-fix.py] or [fix-final-encoding.py] on the
    output of [fix-encoding-complete.py], or [fix-final-encoding.py] on
    the output of [final-fix.py], changes nothing and reports 0 fixes:
    their keys are among those already replaced, and the quote of line
    181 is settled. *)
Theorem later_scripts_find_nothing (x : str) :
  (let y := fst (FixEncodingComplete.transform x) in
   FinalFix.transform y = (y, 0)
   /\ FixFinalEncoding.transform y = (y, 0))
  /\ (let z := fst (FinalFix.transform x) in
      FixFinalEncoding.transform z = (z, 0)).
Proof.
  cbv zeta. split; [split|].
  - apply final_settled_state.
    + intros k Hk.
      apply FixEncodingCompleteFacts.complete_keys_absent.
      simpl in Hk.
      destruct Hk as [<- | [<- | [<- | [<- | []]]]]; vm_compute; tauto.
    + apply FixEncodingCompleteFacts.complete_settled_181.
  - apply encoding_settled_state. intros k Hk.
    apply FixEncodingCompleteFacts.complete_keys_absent.
    simpl in Hk.
    destruct Hk as [<- | [<- | [<- | [<- | []]]]]; vm_compute; tauto.
  - apply encoding_settled_state. intros k Hk.
    apply FinalFixFacts.final_keys_absent. exact Hk.
Qed.

(** X5.  Two entries of [fix-encoding-complete.py] never match: the
    22nd ('閫氱煡閰嶇疆') holds the 12th key and the 24th (the long
    sentence) holds the 14th, which have been replaced everywhere by the
    time the loop reaches them.  For every input the loop, and so the
    script, ends in the same state with these two entries removed from
    the table. *)
Theorem shadowed_entries_never_match (x : str) :
  FixEncodingComplete.table_loop x
  = fold_left fix_entry live_replacements (x, 0).
Proof. apply complete_table_loop_live. Qed.

(** X6.  The quote patch of line 191, on the content and counter that
    reach it.  If the content holds the opening form of the attribute
    of '删除流水线' and not its closed form, the patch replaces the first
    by the second and adds exactly 1, and the output of the pass holds
    the closed form; if the closed form is already there the patch
    changes nothing. *)
Theorem line_191_quote_repair (x : str) :
  let st := FixEncodingComplete.patch_181
              (FixEncodingComplete.table_loop x) in
  (contains FixEncodingComplete.old_191 (fst st) = true ->
   contains FixEncodingComplete.new_191 (fst st) = false ->
   FixEncodingComplete.patch_191 st
   = (replace FixEncodingComplete.old_191 FixEncodingComplete.new_191
        (fst st),
      snd st + 1)
   /\ contains FixEncodingComplete.new_191
        (fst (FixEncodingComplete.transform x)) = true)
  /\ (contains FixEncodingComplete.new_191 (fst st) = true ->
      FixEncodingComplete.patch_191 st = st).
Proof.
  cbv zeta. split.
  - intros H1 H2.
    assert (E : FixEncodingComplete.patch_191
                  (FixEncodingComplete.patch_181
                     (FixEncodingComplete.table_loop x))
                = (replace FixEncodingComplete.old_191
                     FixEncodingComplete.new_191
                     (fst (FixEncodingComplete.patch_181
                             (FixEncodingComplete.table_loop x))),
                   snd (FixEncodingComplete.patch_181
                          (FixEncodingComplete.table_loop x)) + 1)).
    { unfold FixEncodingComplete.patch_191.
      apply quote_patch_applied; [exact H1 | exact H2]. }
    split; [exact E|].
    rewrite FixEncodingCompleteFacts.complete_transform_fst.
    apply replace_keeps; [discriminate | vm_compute; reflexivity |].
    rewrite E. cbn [fst].
    apply replace_puts_new; [discriminate | exact H1].
  - intros H. unfold FixEncodingComplete.patch_191.
    apply quote_patch_settled_id. right. exact H.
Qed.

(** X6 on the input [title=], a double quote and '鍒犻櫎娴佹按绾?': the
    9th entry restores the label, the patch closes the quote and the
    script counts 2 fixes. *)
Lemma line_191_quote_repair_witness :
  let x := [116; 105; 116; 108; 101; 61; 34;
            37714; 29371; 27342; 23092; 20345; 25353; 32510; 63]%N in
  FixEncodingComplete.patch_191
    (FixEncodingComplete.patch_181 (FixEncodingComplete.table_loop x))
  = (FixEncodingComplete.new_191, 2)
  /\ contains FixEncodingComplete.new_191
       (fst (FixEncodingComplete.transform x)) = true.
Proof.
  intros x. destruct (line_191_quote_repair x) as [H _].
  destruct H as [E C]; [vm_compute; reflexivity ..|].
  split; [rewrite E; vm_compute; reflexivity | exact C].
Defined.

(** X13.  Whatever the input, [fix-encoding-complete.py] reports at
    most 33 fixes: one for each of the 27 entries that can match, one
    for each quote patch and 4 for the block.  The number of occurrences
    replaced does not enter the count. *)
Theorem fix_encoding_complete_count_at_most_33 (x : str) :
  snd (FixEncodingComplete.transform x) <= 33.
Proof.
  unfold FixEncodingComplete.transform, FixEncodingComplete.patch_template,
    FixEncodingComplete.patch_191, FixEncodingComplete.patch_181.
  rewrite complete_table_loop_live.
  apply (loop_patches_le live_replacements
           FixEncodingComplete.old_181
           (FixEncodingComplete.old_181 ++ [34%N])
           FixEncodingComplete.new_181
           FixEncodingComplete.old_191
           (FixEncodingComplete.old_191 ++ [34%N])
           FixEncodingComplete.new_191
           FixEncodingComplete.old_template
           FixEncodingComplete.new_template 4 x).
Qed.

(** X14.  The block patch replaces every copy of the malformed block,
    wherever the input holds it: the corrected block occurs in the
    output as often as both blocks together occur in the input.  The
    counter gets 4 once if the input holds the block, however many
    copies there are, and nothing otherwise. *)
Theorem every_block_is_replaced (x : str) :
  count FixEncodingComplete.new_template
    (fst (FixEncodingComplete.transform x))
  = count FixEncodingComplete.new_template x
    + count FixEncodingComplete.old_template x
  /\ snd (FixEncodingComplete.transform x)
     = snd (FixEncodingComplete.patch_191
              (FixEncodingComplete.patch_181
                 (FixEncodingComplete.table_loop x)))
       + (if contains FixEncodingComplete.old_template x then 4 else 0).
Proof.
  split.
  - rewrite FixEncodingCompleteFacts.complete_transform_fst.
    rewrite count_replace_value;
      [| discriminate | discriminate | vm_compute; reflexivity ..].
    rewrite (complete_block_count_kept FixEncodingComplete.new_template x)
      by (try discriminate; vm_compute; reflexivity).
    rewrite (complete_block_count_kept FixEncodingComplete.old_template x)
      by (try discriminate; vm_compute; reflexivity).
    reflexivity.
  - unfold FixEncodingComplete.transform, FixEncodingComplete.patch_template.
    rewrite block_patch_snd.
    now rewrite FixEncodingCompleteFacts.complete_template_reaches_patch.
Qed.

(** X15.  [fix-final-encoding.py] closes the quote inside its third
    entry, so it adds one double quote for each occurrence of
    '执行娴佹按绾?' in the input, whatever stands around the occurrence,
    and no other: the output holds as many double quotes as the input
    plus the number of occurrences of that key. *)
Theorem fix_final_encoding_adds_a_quote_per_label (x : str) :
  count [34%N] (fst (FixFinalEncoding.transform x))
  = count [34%N] x
    + count [25191; 34892; 23092; 20345; 25353; 32510; 63]%N x.
Proof.
  set (q := [34%N]).
  set (k := [25191; 34892; 23092; 20345; 25353; 32510; 63]%N).
  set (v := [25191; 34892; 27969; 27700; 32447; 34]%N).
  rewrite FixFinalEncodingFacts.encoding_transform_fst.
  change FixFinalEncoding.fixes
    with (firstn 2 FixFinalEncoding.fixes
          ++ (k, v) :: skipn 3 FixFinalEncoding.fixes).
  rewrite replace_all_app, replace_all_cons. cbn [fst snd].
  rewrite (count_replace_all_untouched q (skipn 3 FixFinalEncoding.fixes))
    by (try discriminate; vm_compute; reflexivity).
  assert (E : forall s, count q (replace k v s) + 0 * count k s
                        = count q s + 1 * count k s).
  { apply count_replace_gen; try discriminate.
    - intros r. apply count_skip_prefix. vm_compute; reflexivity.
    - intros r.
      change (v ++ r)
        with ([25191; 34892; 27969; 27700; 32447]%N ++ q ++ r).
      rewrite count_skip_prefix by (vm_compute; reflexivity).
      apply count_app. discriminate.
    - vm_compute; reflexivity.
    - vm_compute; reflexivity. }
  specialize (E (replace_all (firstn 2 FixFinalEncoding.fixes) x)).
  rewrite !(count_replace_all_untouched _ (firstn 2 FixFinalEncoding.fixes))
    in E by (try discriminate; vm_compute; reflexivity).
  lia.
Qed.

End Reports.

(* ================================================================= *)
(** * The UTF-8 codec *)

Module CodecFacts.
Import PyStrFacts FileIO.
Local Open Scope N_scope.

Lemma continuation_iff (b : byte) :
  continuation b = true <-> 128 <= b <= 191.
Proof.
  unfold continuation. rewrite andb_true_iff, !N.leb_le. tauto.
Qed.

(** The quotients and remainders of a code point built from its
    six-bit groups. *)
Lemma groups2 (a d : N) :
  d < 64 -> (a * 64 + d) / 64 = a /\ (a * 64 + d) mod 64 = d.
Proof.
  intros H. split; symmetry.
  - apply (N.div_unique _ 64 a d); lia.
  - apply (N.mod_unique _ 64 a d); lia.
Qed.

Lemma groups3 (a b d : N) :
  b < 64 -> d < 64 ->
  let c := a * 4096 + b * 64 + d in
  c / 4096 = a /\ (c / 64) mod 64 = b /\ c mod 64 = d.
Proof.
  intros Hb Hd c.
  assert (E1 : c / 64 = a * 64 + b).
  { symmetry. apply (N.div_unique _ 64 _ d); unfold c; lia. }
  assert (E0 : c mod 64 = d).
  { symmetry. apply (N.mod_unique _ 64 (a * 64 + b) d); unfold c; lia. }
  destruct (groups2 a b Hb) as [E2 E3].
  split; [|split; [now rewrite E1 | exact E0]].
  change 4096 with (64 * 64). now rewrite <- N.Div0.div_div, E1.
Qed.

Lemma groups4 (a b d e : N) :
  b < 64 -> d < 64 -> e < 64 ->
  let c := a * 262144 + b * 4096 + d * 64 + e in
  c / 262144 = a /\ (c / 4096) mod 64 = b
  /\ (c / 64) mod 64 = d /\ c mod 64 = e.
Proof.
  intros Hb Hd He c.
  assert (E1 : c / 64 = a * 4096 + b * 64 + d).
  { symmetry. apply (N.div_unique _ 64 _ e); unfold c; lia. }
  assert (E0 : c mod 64 = e).
  { symmetry. apply (N.mod_unique _ 64 (a * 4096 + b * 64 + d) e);
      unfold c; lia. }
  destruct (groups3 a b d Hb Hd) as (E2 & E3 & E4).
  assert (E5 : c / 4096 = a * 64 + b).
  { change 4096 with (64 * 64). rewrite <- N.Div0.div_div, E1.
    symmetry. apply (N.div_unique _ 64 _ d); lia. }
  split; [|split; [|split]].
  - change 262144 with (64 * 4096). now rewrite <- N.Div0.div_div, E1.
  - rewrite E5. apply (groups2 a b Hb).
  - now rewrite E1.
  - exact E0.
Qed.

(** Boolean tests on bytes and code points, as propositions. *)
Ltac bools :=
  repeat match goal with
         | H : _ && _ = true |- _ =>
             apply andb_true_iff in H; destruct H
         | H : _ && _ = false |- _ =>
             apply andb_false_iff in H; destruct H
         | H : _ || _ = true |- _ =>
             apply orb_true_iff in H; destruct H
         | H : _ || _ = false |- _ =>
             apply orb_false_iff in H; destruct H
         | H : (_ <=? _) = true |- _ => apply N.leb_le in H
         | H : (_ <=? _) = false |- _ => apply N.leb_gt in H
         | H : (_ <? _) = true |- _ => apply N.ltb_lt in H
         | H : (_ <? _) = false |- _ => apply N.ltb_ge in H
         | H : (_ =? _) = true |- _ => apply N.eqb_eq in H
         | H : (_ =? _) = false |- _ => apply N.eqb_neq in H
         | H : continuation _ = true |- _ => apply continuation_iff in H
         end.

(** Settle a boolean test in the goal by arithmetic. *)
Ltac decide_test :=
  match goal with
  | |- (_ <? _) = true => apply N.ltb_lt; lia
  | |- (_ <? _) = false => apply N.ltb_ge; lia
  | |- (_ <=? _) = true => apply N.leb_le; lia
  | |- (_ <=? _) = false => apply N.leb_gt; lia
  | |- (_ =? _) = true => apply N.eqb_eq; lia
  | |- (_ =? _) = false => apply N.eqb_neq; lia
  | |- continuation _ = true => apply continuation_iff; lia
  | |- _ && _ = true => apply andb_true_iff; split; decide_test
  end.

Lemma decode1 (b0 : byte) (r : list byte) :
  b0 < 128 ->
  utf8_decode (b0 :: r) = option_map (cons b0) (utf8_decode r).
Proof.
  intros H. cbn [utf8_decode].
  replace (b0 <? 128) with true by (symmetry; decide_test). reflexivity.
Qed.

Lemma decode2 (b0 b1 : byte) (r : list byte) :
  194 <= b0 <= 223 -> continuation b1 = true ->
  utf8_decode (b0 :: b1 :: r)
  = option_map (cons ((b0 - 192) * 64 + (b1 - 128))) (utf8_decode r).
Proof.
  intros H C. cbn [utf8_decode].
  replace (b0 <? 128) with false by (symmetry; decide_test).
  replace ((194 <=? b0) && (b0 <=? 223)) with true
    by (symmetry; decide_test).
  now rewrite C.
Qed.

Lemma decode3 (b0 b1 b2 : byte) (r : list byte) :
  224 <= b0 <= 239 -> second_of3 b0 b1 = true -> continuation b2 = true ->
  utf8_decode (b0 :: b1 :: b2 :: r)
  = option_map
      (cons ((b0 - 224) * 4096 + (b1 - 128) * 64 + (b2 - 128)))
      (utf8_decode r).
Proof.
  intros H S C. cbn [utf8_decode].
  replace (b0 <? 128) with false by (symmetry; decide_test).
  replace ((194 <=? b0) && (b0 <=? 223)) with false
    by (symmetry; apply andb_false_iff; right; decide_test).
  replace ((224 <=? b0) && (b0 <=? 239)) with true
    by (symmetry; decide_test).
  now rewrite S, C.
Qed.

Lemma decode4 (b0 b1 b2 b3 : byte) (r : list byte) :
  240 <= b0 <= 244 -> second_of4 b0 b1 = true ->
  continuation b2 = true -> continuation b3 = true ->
  utf8_decode (b0 :: b1 :: b2 :: b3 :: r)
  = option_map
      (cons ((b0 - 240) * 262144 + (b1 - 128) * 4096
             + (b2 - 128) * 64 + (b3 - 128)))
      (utf8_decode r).
Proof.
  intros H S C2 C3. cbn [utf8_decode].
  replace (b0 <? 128) with false by (symmetry; decide_test).
  replace ((194 <=? b0) && (b0 <=? 223)) with false
    by (symmetry; apply andb_false_iff; right; decide_test).
  replace ((224 <=? b0) && (b0 <=? 239)) with false
    by (symmetry; apply andb_false_iff; right; decide_test).
  replace ((240 <=? b0) && (b0 <=? 244)) with true
    by (symmetry; decide_test).
  now rewrite S, C2, C3.
Qed.

(** The second byte of a three-byte sequence, as arithmetic. *)
Lemma second_of3_iff (b0 b1 : byte) :
  second_of3 b0 b1 = true
  <-> 128 <= b1 <= 191 /\ (b0 = 224 -> 160 <= b1) /\ (b0 = 237 -> b1 <= 159).
Proof.
  unfold second_of3.
  destruct (b0 =? 224) eqn:E1; [|destruct (b0 =? 237) eqn:E2];
    bools; rewrite ?continuation_iff, ?andb_true_iff, ?N.leb_le; lia.
Qed.

Lemma second_of4_iff (b0 b1 : byte) :
  second_of4 b0 b1 = true
  <-> 128 <= b1 <= 191 /\ (b0 = 240 -> 144 <= b1) /\ (b0 = 244 -> b1 <= 143).
Proof.
  unfold second_of4.
  destruct (b0 =? 240) eqn:E1; [|destruct (b0 =? 244) eqn:E2];
    bools; rewrite ?continuation_iff, ?andb_true_iff, ?N.leb_le; lia.
Qed.

(** *** From bytes to the code point and back *)

Lemma encode_char1 (b0 : byte) :
  b0 < 128 -> utf8_encode_char b0 = Some [b0].
Proof.
  intros H. unfold utf8_encode_char.
  replace (b0 <? 128) with true by (symmetry; decide_test). reflexivity.
Qed.

Lemma encode_char2 (b0 b1 : byte) :
  194 <= b0 <= 223 -> continuation b1 = true ->
  utf8_encode_char ((b0 - 192) * 64 + (b1 - 128)) = Some [b0; b1].
Proof.
  intros H C. bools.
  destruct (groups2 (b0 - 192) (b1 - 128)) as [E1 E2]; [lia|].
  unfold utf8_encode_char. rewrite E1, E2.
  replace ((b0 - 192) * 64 + (b1 - 128) <? 128) with false
    by (symmetry; decide_test).
  replace ((b0 - 192) * 64 + (b1 - 128) <? 2048) with true
    by (symmetry; decide_test).
  repeat f_equal; lia.
Qed.

Lemma encode_char3 (b0 b1 b2 : byte) :
  224 <= b0 <= 239 -> second_of3 b0 b1 = true -> continuation b2 = true ->
  utf8_encode_char ((b0 - 224) * 4096 + (b1 - 128) * 64 + (b2 - 128))
  = Some [b0; b1; b2].
Proof.
  intros H S C. apply second_of3_iff in S. bools.
  destruct (groups3 (b0 - 224) (b1 - 128) (b2 - 128)) as (E1 & E2 & E3);
    [lia | lia |].
  cbv zeta in E1, E2, E3.
  set (c := (b0 - 224) * 4096 + (b1 - 128) * 64 + (b2 - 128)) in *.
  assert (Hc : c = (b0 - 224) * 4096 + (b1 - 128) * 64 + (b2 - 128))
    by reflexivity.
  clearbody c.
  unfold utf8_encode_char. rewrite E1, E2, E3.
  replace (c <? 128) with false by (symmetry; decide_test).
  replace (c <? 2048) with false by (symmetry; decide_test).
  replace (c <? 65536) with true by (symmetry; decide_test).
  replace ((55296 <=? c) && (c <=? 57343)) with false.
  - repeat f_equal; lia.
  - symmetry. apply andb_false_iff.
    destruct (N.lt_ge_cases c 55296) as [L | L];
      [left; decide_test | right; decide_test].
Qed.

Lemma encode_char4 (b0 b1 b2 b3 : byte) :
  240 <= b0 <= 244 -> second_of4 b0 b1 = true ->
  continuation b2 = true -> continuation b3 = true ->
  utf8_encode_char ((b0 - 240) * 262144 + (b1 - 128) * 4096
                    + (b2 - 128) * 64 + (b3 - 128))
  = Some [b0; b1; b2; b3].
Proof.
  intros H S C2 C3. apply second_of4_iff in S. bools.
  destruct (groups4 (b0 - 240) (b1 - 128) (b2 - 128) (b3 - 128))
    as (E1 & E2 & E3 & E4); [lia | lia | lia |].
  cbv zeta in E1, E2, E3, E4.
  set (c := (b0 - 240) * 262144 + (b1 - 128) * 4096
            + (b2 - 128) * 64 + (b3 - 128)) in *.
  assert (Hc : c = (b0 - 240) * 262144 + (b1 - 128) * 4096
                   + (b2 - 128) * 64 + (b3 - 128)) by reflexivity.
  clearbody c.
  unfold utf8_encode_char. rewrite E1, E2, E3, E4.
  replace (c <? 128) with false by (symmetry; decide_test).
  replace (c <? 2048) with false by (symmetry; decide_test).
  replace (c <? 65536) with false by (symmetry; decide_test).
  replace (c <? 1114112) with true by (symmetry; decide_test).
  repeat f_equal; lia.
Qed.

Lemma utf8_decode_encode (bs : list byte) :
  forall s, utf8_decode bs = Some s -> utf8_encode s = Some bs.
Proof.
  remember (length bs) as m eqn:Hm.
  revert bs Hm; induction m as [m IH] using lt_wf_ind; intros bs Hm s H.
  destruct bs as [|b0 r0]; [injection H as <-; reflexivity|].
  cbn [utf8_decode] in H.
  destruct (b0 <? 128) eqn:E1.
  { destruct (utf8_decode r0) as [s'|] eqn:D; [|discriminate].
    cbn [option_map] in H. injection H as <-. cbn [utf8_encode].
    bools. rewrite encode_char1 by lia.
    rewrite (IH (length r0)) with (bs := r0) (s := s');
      [reflexivity | simpl in Hm; lia | reflexivity | exact D]. }
  destruct ((194 <=? b0) && (b0 <=? 223)) eqn:E2.
  { destruct r0 as [|b1 r1]; [discriminate|].
    destruct (continuation b1) eqn:C1; [|discriminate].
    destruct (utf8_decode r1) as [s'|] eqn:D; [|discriminate].
    cbn [option_map] in H. injection H as <-. cbn [utf8_encode].
    apply andb_true_iff in E2 as [L1 L2].
    apply N.leb_le in L1, L2.
    rewrite encode_char2 by (auto; lia).
    rewrite (IH (length r1)) with (bs := r1) (s := s');
      [reflexivity | simpl in Hm; lia | reflexivity | exact D]. }
  destruct ((224 <=? b0) && (b0 <=? 239)) eqn:E3.
  { destruct r0 as [|b1 [|b2 r2]]; try discriminate.
    destruct (second_of3 b0 b1 && continuation b2) eqn:C; [|discriminate].
    apply andb_true_iff in C as [C1 C2].
    destruct (utf8_decode r2) as [s'|] eqn:D; [|discriminate].
    cbn [option_map] in H. injection H as <-. cbn [utf8_encode].
    apply andb_true_iff in E3 as [L1 L2].
    apply N.leb_le in L1, L2.
    rewrite encode_char3 by (auto; lia).
    rewrite (IH (length r2)) with (bs := r2) (s := s');
      [reflexivity | simpl in Hm; lia | reflexivity | exact D]. }
  destruct ((240 <=? b0) && (b0 <=? 244)) eqn:E4; [|discriminate].
  destruct r0 as [|b1 [|b2 [|b3 r3]]]; try discriminate.
  destruct (second_of4 b0 b1 && continuation b2 && continuation b3) eqn:C;
    [|discriminate].
  apply andb_true_iff in C as [C C3]. apply andb_true_iff in C as [C1 C2].
  destruct (utf8_decode r3) as [s'|] eqn:D; [|discriminate].
  cbn [option_map] in H. injection H as <-. cbn [utf8_encode].
  apply andb_true_iff in E4 as [L1 L2].
  apply N.leb_le in L1, L2.
  rewrite encode_char4 by (auto; lia).
  rewrite (IH (length r3)) with (bs := r3) (s := s');
    [reflexivity | simpl in Hm; lia | reflexivity | exact D].
Qed.

(** *** From the code point to its bytes and back *)

(** Name the quotient and remainder of [c] by 64. *)
Ltac split64 c :=
  let q := fresh "q" in
  let m := fresh "m" in
  pose proof (N.div_mod' c 64);
  pose proof (N.mod_lt c 64 ltac:(discriminate));
  set (q := c / 64) in *; set (m := c mod 64) in *;
  clearbody q m.

Lemma decode_encode_char (c : char) (bs r : list byte) :
  utf8_encode_char c = Some bs ->
  utf8_decode (bs ++ r) = option_map (cons c) (utf8_decode r).
Proof.
  unfold utf8_encode_char.
  destruct (c <? 128) eqn:E1.
  { intros [= <-]. bools. apply decode1. lia. }
  destruct (c <? 2048) eqn:E2.
  { intros [= <-]. bools.
    change (utf8_decode (192 + c / 64 :: 128 + c mod 64 :: r)
            = option_map (cons c) (utf8_decode r)).
    split64 c.
    rewrite decode2 by (try apply continuation_iff; lia).
    match goal with
    | |- option_map (cons ?X) _ = _ => replace X with c by lia
    end. reflexivity. }
  destruct (c <? 65536) eqn:E3.
  { destruct ((55296 <=? c) && (c <=? 57343)) eqn:E4; [discriminate|].
    intros [= <-].
    change (utf8_decode (224 + c / 4096 :: 128 + (c / 64) mod 64
                         :: 128 + c mod 64 :: r)
            = option_map (cons c) (utf8_decode r)).
    replace (c / 4096) with (c / 64 / 64)
      by (rewrite N.Div0.div_div; reflexivity).
    split64 c. split64 q. bools.
    all: rewrite decode3;
      [| lia | apply second_of3_iff; lia | apply continuation_iff; lia].
    all: match goal with
         | |- option_map (cons ?X) _ = _ => replace X with c by lia
         end; reflexivity. }
  destruct (c <? 1114112) eqn:E5; [|discriminate].
  intros [= <-].
  change (utf8_decode (240 + c / 262144 :: 128 + (c / 4096) mod 64
                       :: 128 + (c / 64) mod 64 :: 128 + c mod 64 :: r)
          = option_map (cons c) (utf8_decode r)).
  replace (c / 262144) with (c / 64 / 64 / 64)
    by (rewrite !N.Div0.div_div; reflexivity).
  replace (c / 4096) with (c / 64 / 64)
    by (rewrite N.Div0.div_div; reflexivity).
  split64 c. split64 q. split64 q0. bools.
  rewrite decode4;
    [| lia | apply second_of4_iff; lia
     | apply continuation_iff; lia | apply continuation_iff; lia].
  match goal with
  | |- option_map (cons ?X) _ = _ => replace X with c by lia
  end. reflexivity.
Qed.

Lemma utf8_encode_decode (s : str) :
  forall bs, utf8_encode s = Some bs -> utf8_decode bs = Some s.
Proof.
  induction s as [|c s IH]; intros bs H.
  - injection H as <-. reflexivity.
  - cbn [utf8_encode] in H.
    destruct (utf8_encode_char c) as [b|] eqn:E; [|discriminate].
    destruct (utf8_encode s) as [r|] eqn:E'; [|discriminate].
    injection H as <-.
    rewrite (decode_encode_char c b r E), (IH r eq_refl). reflexivity.
Qed.

(** *** The texts that can be saved *)

Lemma utf8_encode_char_scalar (c : char) :
  scalar c = true <-> utf8_encode_char c <> None.
Proof.
  unfold scalar, utf8_encode_char.
  destruct (c <? 128) eqn:E1, (c <? 2048) eqn:E2, (c <? 65536) eqn:E3,
    (c <? 1114112) eqn:E5, (c <? 55296) eqn:E6, (57343 <? c) eqn:E7,
    (55296 <=? c) eqn:E8, (c <=? 57343) eqn:E9;
    cbn [andb orb];
    (split; [intros H; try discriminate | intros H; try reflexivity]);
    try congruence; exfalso; bools; lia.
Qed.

Lemma utf8_encode_scalar (s : str) :
  forallb scalar s = true <-> utf8_encode s <> None.
Proof.
  induction s as [|c s IH]; cbn [forallb utf8_encode].
  - split; [discriminate | reflexivity].
  - rewrite andb_true_iff, IH, utf8_encode_char_scalar.
    destruct (utf8_encode_char c), (utf8_encode s);
      split; try tauto; try discriminate; intros _; split; discriminate.
Qed.

Lemma utf8_decode_scalar (bs : list byte) (s : str) :
  utf8_decode bs = Some s -> forallb scalar s = true.
Proof.
  intros H. apply utf8_decode_encode in H.
  apply utf8_encode_scalar. congruence.
Qed.

End CodecFacts.

(* ================================================================= *)
(** * Whole runs *)

Module RunFacts.
Import PyStrFacts StepFacts LoopFacts ScriptFacts FileIO FileIOFacts CodecFacts.

(** A replacement builds its result from characters of the text and of
    the new string. *)
Lemma replace_forallb (P : char -> bool) (old new s : str) :
  forallb P s = true -> forallb P new = true ->
  forallb P (replace old new s) = true.
Proof.
  intros Hs Hn. destruct old as [|x old].
  - unfold replace. rewrite forallb_app, Hn. simpl.
    induction s as [|c s IH]; [reflexivity|].
    simpl in Hs |- *. apply andb_true_iff in Hs as [H1 H2].
    rewrite H1, forallb_app, Hn. simpl. auto.
  - revert s Hs.
    refine (@replace_ind (x :: old) _ ltac:(discriminate) _ _ _); cbv beta.
    + intros _. now rewrite replace_nil.
    + intros t IH H. rewrite replace_app by discriminate.
      rewrite forallb_app in H. apply andb_true_iff in H as [_ H].
      rewrite forallb_app, Hn. simpl. auto.
    + intros c t E IH H. rewrite replace_cons by exact E.
      simpl in H |- *. apply andb_true_iff in H as [H1 H2].
      rewrite H1. simpl. auto.
Qed.

Lemma replace_all_forallb (P : char -> bool) (table : list (str * str)) :
  forallb (fun e => forallb P (snd e)) table = true ->
  forall s, forallb P s = true -> forallb P (replace_all table s) = true.
Proof.
  induction table as [|e table IH]; intros H s Hs; [exact Hs|].
  simpl in H. apply andb_true_iff in H as [H1 H2].
  rewrite replace_all_cons. apply IH; [exact H2|].
  now apply replace_forallb.
Qed.

Lemma quote_patch_forallb (P : char -> bool) (o c n : str) (st : state) :
  forallb P n = true -> forallb P (fst st) = true ->
  forallb P (fst (quote_patch o c n st)) = true.
Proof.
  intros Hn H. rewrite quote_patch_fst.
  destruct (contains o (fst st) && negb (contains c (fst st))); [|exact H].
  now apply replace_forallb.
Qed.

(** The scripts turn a text of scalar values into one. *)
Lemma final_scalar (x : str) :
  forallb scalar x = true ->
  forallb scalar (fst (FinalFix.transform x)) = true.
Proof.
  intros H. unfold FinalFix.transform, FinalFix.patch_quote.
  apply quote_patch_forallb; [vm_compute; reflexivity|].
  rewrite FinalFixFacts.final_table_fst.
  apply replace_all_forallb; [vm_compute; reflexivity | exact H].
Qed.

Lemma encoding_scalar (x : str) :
  forallb scalar x = true ->
  forallb scalar (fst (FixFinalEncoding.transform x)) = true.
Proof.
  intros H. rewrite FixFinalEncodingFacts.encoding_transform_fst.
  apply replace_all_forallb; [vm_compute; reflexivity | exact H].
Qed.

Lemma complete_scalar (x : str) :
  forallb scalar x = true ->
  forallb scalar (fst (FixEncodingComplete.transform x)) = true.
Proof.
  intros H. rewrite FixEncodingCompleteFacts.complete_transform_fst.
  apply replace_forallb; [|vm_compute; reflexivity].
  unfold FixEncodingComplete.patch_191.
  apply quote_patch_forallb; [vm_compute; reflexivity|].
  unfold FixEncodingComplete.patch_181.
  apply quote_patch_forallb; [vm_compute; reflexivity|].
  rewrite FixEncodingCompleteFacts.complete_table_fst.
  apply replace_all_forallb; [vm_compute; reflexivity | exact H].
Qed.

(** A run whose load and save both succeed. *)
Lemma run_ok (t : str -> state) (fs : filesystem) (f : file)
      (c : str) (bs : list byte) :
  fs file_path = Some f -> readable f = true -> writable f = true ->
  utf8_decode (data f) = Some c ->
  utf8_encode (fst (t c)) = Some bs ->
  run t fs = (inr (snd (t c)), update fs (mkFile bs true true)).
Proof.
  intros H R W D E. rewrite (run_read_ok t fs c f H R D). now rewrite W, E.
Qed.

(** A script that keeps texts scalar completes on every readable,
    writable, decodable file, and what it saves reads back as its
    output. *)
Lemma run_completes_for (t : str -> state) (fs : filesystem) (f : file)
      (c : str) :
  (forall x, forallb scalar x = true -> forallb scalar (fst (t x)) = true) ->
  fs file_path = Some f -> readable f = true -> writable f = true ->
  utf8_decode (data f) = Some c ->
  exists bs,
    utf8_encode (fst (t c)) = Some bs
    /\ run t fs = (inr (snd (t c)), update fs (mkFile bs true true))
    /\ contents (snd (run t fs)) = Some (fst (t c)).
Proof.
  intros Ht H R W D.
  pose proof (Ht c (utf8_decode_scalar _ _ D)) as Hs.
  apply utf8_encode_scalar in Hs.
  destruct (utf8_encode (fst (t c))) as [bs|] eqn:E; [|congruence].
  exists bs. split; [reflexivity|].
  rewrite (run_ok t fs f c bs H R W D E). split; [reflexivity|].
  unfold contents. cbn [snd]. rewrite update_file_path. cbn [data].
  now apply utf8_encode_decode.
Qed.

Lemma update_other (fs : filesystem) (f : file) (p : str) :
  p <> file_path -> update fs f p = fs p.
Proof.
  intros H. unfold update.
  destruct (str_eqb p file_path) eqn:E; [|reflexivity].
  apply str_eqb_eq in E. contradiction.
Qed.

Lemma run_other_paths (t : str -> state) (fs : filesystem) (p : str) :
  p <> file_path -> snd (run t fs) p = fs p.
Proof.
  intros Hp. unfold run, bind, read_text.
  destruct (fs file_path) as [f|] eqn:E; [|reflexivity].
  destruct (readable f) eqn:R; [|reflexivity].
  destruct (utf8_decode (data f)) as [c|]; [|reflexivity].
  destruct (t c) as [c' n]. unfold write_text. rewrite E.
  destruct (writable f); [|reflexivity].
  destruct (utf8_encode c'); cbn [snd ret]; now apply update_other.
Qed.

(** A text the transform leaves alone goes back with its own bytes. *)
Lemma run_unchanged (t : str -> state) (fs : filesystem) (f : file)
      (c : str) :
  fs file_path = Some f -> readable f = true -> writable f = true ->
  utf8_decode (data f) = Some c -> fst (t c) = c ->
  run t fs = (inr (snd (t c)), update fs (mkFile (data f) true true)).
Proof.
  intros H R W D E. apply (run_ok t fs f c (data f) H R W D).
  rewrite E. now apply utf8_decode_encode.
Qed.

(** The second of two runs in a row, for a transform whose second pass
    changes nothing. *)
Lemma run_again (t : str -> state) (fs : filesystem) (f : file)
      (c : str) (bs : list byte) :
  fst (t (fst (t c))) = fst (t c) ->
  fs file_path = Some f -> readable f = true -> writable f = true ->
  utf8_decode (data f) = Some c ->
  utf8_encode (fst (t c)) = Some bs ->
  snd (run t fs) file_path = Some (mkFile bs true true)
  /\ run t (snd (run t fs))
     = (inr (snd (t (fst (t c)))),
        update (snd (run t fs)) (mkFile bs true true)).
Proof.
  intros Hi H R W D E.
  rewrite (run_ok t fs f c bs H R W D E). cbn [snd].
  split; [apply update_file_path|].
  apply (run_ok t (update fs (mkFile bs true true)) (mkFile bs true true)
           (fst (t c)) bs (update_file_path _ _) eq_refl eq_refl).
  - cbn [data]. now apply utf8_encode_decode.
  - now rewrite Hi.
Qed.

End RunFacts.

(* ================================================================= *)
(** * Loading, saving and running twice *)

Section Runs.
Import PyStrFacts StepFacts LoopFacts ScriptFacts.
Import FileIO FileIOFacts CodecFacts RunFacts.













End Runs.
